(** * Broadcast hub of FransK/multiplayer-games: a shallow embedding

    The Go program in [server/server.go] keeps a registry of subscribers
    (one per WebSocket connection), fans every published message out to
    the buffered channel of each of them, and evicts the ones whose channel
    is full.  This file embeds that program as functions on an explicit
    world (server fields, the heap of subscribers, the goroutines that
    [publish] has spawned, and the trace of the calls made on the outside)
    and proves properties of it.

    Goroutines are modelled by interleaving: every blocking call of the
    source (the handshake, the [select] of the write loop, one round of the
    read loop, a spawned [closeSlow]) is an event of a step function, and
    the answers of the libraries (does the handshake succeed, which case
    of a [select] fires, what a read returns) come with the event. *)

From stdpp Require Import gmap strings list.
From Stdlib Require Import ZArith.

Set Default Proof Using "Type".

(** ** Basic data *)

(** [[]byte] *)
Abbreviation bytes := (list Byte.byte).

#[global] Instance byte_eq_dec : EqDecision Byte.byte := Byte.byte_eq_dec.

(** The address of a [subscriber] ([*subscriber], the key of the registry). *)
Abbreviation ptr := positive.

(** A [*websocket.Conn] as handed out by [websocket.Accept]. *)
Abbreviation conn := positive.

(** [time.Duration] counts nanoseconds. *)
Definition Millisecond : Z := 1000000.
Definition Second : Z := 1000 * Millisecond.
Definition Minute : Z := 60 * Second.

(** [websocket.StatusCode] and the [net/http] statuses the handlers use. *)
Definition StatusNormalClosure : Z := 1000.
Definition StatusGoingAway : Z := 1001.
Definition StatusPolicyViolation : Z := 1008.

Definition StatusAccepted : Z := 202.
Definition StatusMethodNotAllowed : Z := 405.
Definition StatusRequestEntityTooLarge : Z := 413.

(** The error values that flow through the server. *)
Inductive error : Type :=
  | Canceled                                  (* context.Canceled *)
  | DeadlineExceeded                          (* context.DeadlineExceeded *)
  | ErrClosed                                 (* net.ErrClosed *)
  | CloseError (code : Z) (reason : string)   (* websocket.CloseError *)
  | MaxBytesError                             (* *http.MaxBytesError *)
  | IOError (what : string).                  (* any other transport error *)

#[global] Instance error_eq_dec : EqDecision error.
Proof. solve_decision. Defined.

(** [websocket.CloseStatus]: the code of a [CloseError], [-1] otherwise
    (also for [nil]). *)
Definition CloseStatus (err : option error) : Z :=
  match err with
  | Some (CloseError code _) => code
  | _ => (-1)%Z
  end.

(** A [context.Context], by the way it was built. *)
Inductive context : Type :=
  | Background
  | WithTimeout (parent : context) (timeout : Z).

#[global] Instance context_eq_dec : EqDecision context.
Proof. solve_decision. Defined.

(** [rate.NewLimiter(rate.Every(every), burst)] *)
Record Limiter : Type := NewLimiter { every : Z; burst : Z }.

(** ** The pluggable game *)

(** [type Game interface { HandleMsg(usrid string, msg []byte) }] *)
Class Game (G : Type) : Type :=
  HandleMsg : G -> string -> bytes -> G.

(** [games.HiLo]: its [HandleMsg] only prints a log line. *)
Record HiLo : Type := { magic_number : Z }.

Definition NewHilo : HiLo := {| magic_number := 10 |}.

#[global] Instance HiLo_Game : Game HiLo :=
  fun h _ _ => h.

(** ** Subscribers and sessions *)

(** Where the [subscribe] call of a session stands. *)
Inductive stage : Type :=
  | Accepting                       (* registered, inside websocket.Accept *)
  | Active                          (* [c] stored, both loops running *)
  | Returned (err : option error).  (* [subscribe] has returned [err] *)

#[global] Instance stage_eq_dec : EqDecision stage.
Proof. solve_decision. Defined.

(** The goroutine started by [go cs.listen(...)]. *)
Inductive listener : Type :=
  | NotStarted
  | Listening
  | Exited (err : option error).

(** One call of [subscribe]: the [subscriber] it allocates together with
    the local variables its [closeSlow] closure captures. *)
Record subscriber : Type := {
  s_id : string;            (* s.id = r.RemoteAddr *)
  s_msgs : list bytes;      (* s.msgs: the buffered channel, oldest first *)
  s_cap : nat;              (* capacity given to make(chan []byte, _) *)
  s_c : option conn;        (* var c *websocket.Conn *)
  s_closed : bool;          (* var closed bool *)
  s_stage : stage;
  s_listen : listener
}.

Definition set_msgs (q : list bytes) (s : subscriber) : subscriber :=
  {| s_id := s_id s; s_msgs := q; s_cap := s_cap s; s_c := s_c s;
     s_closed := s_closed s; s_stage := s_stage s; s_listen := s_listen s |}.

Definition set_c (c : option conn) (s : subscriber) : subscriber :=
  {| s_id := s_id s; s_msgs := s_msgs s; s_cap := s_cap s; s_c := c;
     s_closed := s_closed s; s_stage := s_stage s; s_listen := s_listen s |}.

Definition set_closed (b : bool) (s : subscriber) : subscriber :=
  {| s_id := s_id s; s_msgs := s_msgs s; s_cap := s_cap s; s_c := s_c s;
     s_closed := b; s_stage := s_stage s; s_listen := s_listen s |}.

Definition set_stage (st : stage) (s : subscriber) : subscriber :=
  {| s_id := s_id s; s_msgs := s_msgs s; s_cap := s_cap s; s_c := s_c s;
     s_closed := s_closed s; s_stage := st; s_listen := s_listen s |}.

Definition set_listen (l : listener) (s : subscriber) : subscriber :=
  {| s_id := s_id s; s_msgs := s_msgs s; s_cap := s_cap s; s_c := s_c s;
     s_closed := s_closed s; s_stage := s_stage s; s_listen := l |}.

(** What the server does to the outside, in the order it does it. *)
Inductive effect : Type :=
  | EHandleMsg (usrid : string) (msg : bytes)       (* cs.game.HandleMsg *)
  | EEnqueue (s : ptr) (msg : bytes)                (* s.msgs <- msg *)
  | EGoCloseSlow (s : ptr)                          (* go s.closeSlow() *)
  | EClose (c : conn) (code : Z) (reason : string)  (* c.Close(code, reason) *)
  | ECloseNow (c : conn)                            (* c.CloseNow() *)
  | EWrite (c : conn) (ctx : context) (msg : bytes) (* c.Write(ctx, text, msg) *)
  | ELogSubscribe (err : error)                     (* cs.logf("%v", err) *)
  | ELogEcho (addr : string) (err : error).         (* cs.logf("failed to echo ...") *)

#[global] Instance effect_eq_dec : EqDecision effect.
Proof. solve_decision. Defined.

(** ** What the libraries answer *)

(** The request body as [io.ReadAll] sees it: the bytes the reader yields
    and the error, if any, it ends with instead of [io.EOF]. *)
Record Reader : Type := { r_data : bytes; r_err : option error }.

(** [http.MaxBytesReader(w, r, n)]: reading past [n] bytes fails. *)
Definition MaxBytesReader (r : Reader) (n : Z) : Reader :=
  if decide (Z.of_nat (length (r_data r)) <= n)%Z then r
  else {| r_data := take (Z.to_nat n) (r_data r); r_err := Some MaxBytesError |}.

(** [io.ReadAll] *)
Definition ReadAll (r : Reader) : bytes * option error :=
  (r_data r, r_err r).

(** The part of an [*http.Request] the handlers read. *)
Record Request : Type := {
  Method : string;
  RemoteAddr : string;
  Body : Reader
}.

(** Which case of the [select] of the write loop fires: a message is
    received from [s.msgs] (and [c.Write] then answers [written]), or
    [ctx.Done()] is closed. *)
Inductive selected : Type :=
  | RecvMsg (written : option error)
  | Done.

(** What one round of the read loop meets. *)
Inductive received : Type :=
  | WaitFailed (err : error)      (* l.Wait(ctx) returns err *)
  | ReaderFailed (err : error)    (* c.Reader(ctx) returns err *)
  | ReadAllFailed (err : error)   (* io.ReadAll(body) returns err *)
  | Frame (msg : bytes).          (* a whole frame was read *)

(** The moves of the system. *)
Inductive event : Type :=
  | Subscribe (remoteAddr : string)        (* GET /subscribe reaches subscribe *)
  | Accepted (p : ptr) (r : conn + error)  (* websocket.Accept returns *)
  | Selected (p : ptr) (sel : selected)    (* the select of the write loop *)
  | Received (p : ptr) (rd : received)     (* one round of listen *)
  | RunCloseSlow (p : ptr)                 (* a spawned closeSlow runs *)
  | Post (r : Request).                    (* a request to /publish *)

(** The first occurrence of [p] taken out of [l]. *)
Fixpoint take_out (p : ptr) (l : list ptr) : list ptr :=
  match l with
  | [] => []
  | q :: l' => if decide (p = q) then l' else q :: take_out p l'
  end.

(** ** The server *)

Section server.
Context {G : Type} `{!Game G}.

(** [type gameServer struct]; [logf] and [serveMux] are wiring, and the
    mutex is the atomicity of the functions below. *)
Record gameServer : Type := {
  subscriberMessageBuffer : nat;
  publishLimiter : Limiter;
  subscribers : gset ptr;       (* map[*subscriber]struct{} *)
  game : G
}.

(** The server together with the memory it points into. *)
Record world : Type := {
  cs : gameServer;
  heap : gmap ptr subscriber;   (* the subscribers allocated so far *)
  fresh : ptr;                  (* the next address [&subscriber{}] gives *)
  pending : list ptr;           (* spawned [closeSlow] calls not yet run *)
  trace : list effect
}.

Definition set_subscribers (r : gset ptr) (w : world) : world :=
  {| cs := {| subscriberMessageBuffer := subscriberMessageBuffer (cs w);
              publishLimiter := publishLimiter (cs w);
              subscribers := r;
              game := game (cs w) |};
     heap := heap w; fresh := fresh w; pending := pending w;
     trace := trace w |}.

Definition set_game (g : G) (w : world) : world :=
  {| cs := {| subscriberMessageBuffer := subscriberMessageBuffer (cs w);
              publishLimiter := publishLimiter (cs w);
              subscribers := subscribers (cs w);
              game := g |};
     heap := heap w; fresh := fresh w; pending := pending w;
     trace := trace w |}.

Definition set_heap (h : gmap ptr subscriber) (w : world) : world :=
  {| cs := cs w; heap := h; fresh := fresh w; pending := pending w;
     trace := trace w |}.

Definition set_fresh (p : ptr) (w : world) : world :=
  {| cs := cs w; heap := heap w; fresh := p; pending := pending w;
     trace := trace w |}.

Definition set_pending (l : list ptr) (w : world) : world :=
  {| cs := cs w; heap := heap w; fresh := fresh w; pending := l;
     trace := trace w |}.

Definition emit (e : effect) (w : world) : world :=
  {| cs := cs w; heap := heap w; fresh := fresh w; pending := pending w;
     trace := trace w ++ [e] |}.

(** [s.field = v] through the pointer [p]. *)
Definition update (p : ptr) (f : subscriber -> subscriber) (w : world) : world :=
  set_heap (alter f p (heap w)) w.

(** [newGameServer], for the game [g]. *)
Definition newGameServerWith (g : G) : world :=
  {| cs := {| subscriberMessageBuffer := 16;
              publishLimiter := NewLimiter (100 * Millisecond) 8;
              subscribers := ∅;
              game := g |};
     heap := ∅; fresh := 1%positive; pending := []; trace := [] |}.

(** [addSubscriber] *)
Definition addSubscriber (w : world) (s : ptr) : world :=
  set_subscribers ({[s]} ∪ subscribers (cs w)) w.

(** [deleteSubscriber] *)
Definition deleteSubscriber (w : world) (s : ptr) : world :=
  set_subscribers (subscribers (cs w) ∖ {[s]}) w.

(** A send on a buffered channel that must not wait: [None] when the
    buffer is full.  (The capacity is 16, so a receiver can only be
    waiting when the buffer is empty.) *)
Definition chanTrySend (s : subscriber) (msg : bytes) : option subscriber :=
  if decide (length (s_msgs s) < s_cap s)
  then Some (set_msgs (s_msgs s ++ [msg]) s)
  else None.

(** The body of the loop of [publish]:
    [select { case s.msgs <- msg: default: go s.closeSlow() }]. *)
Definition trySend (msg : bytes) (w : world) (s : ptr) : world :=
  match heap w !! s with
  | Some sub =>
      match chanTrySend sub msg with
      | Some sub' => emit (EEnqueue s msg) (set_heap (<[s := sub']> (heap w)) w)
      | None => emit (EGoCloseSlow s) (set_pending (pending w ++ [s]) w)
      end
  | None => w
  end.

(** [publish]: [publishLimiter.Wait(context.Background())] only delays
    (a background context is never cancelled, and its result is
    dropped); then one [trySend] per registered subscriber, in the order
    the map happens to be ranged over. *)
Definition publish (w : world) (msg : bytes) : world :=
  foldl (trySend msg) w (elements (subscribers (cs w))).



(** [cs.game.HandleMsg(usrid, msg)] *)
Definition handle (w : world) (usrid : string) (msg : bytes) : world :=
  emit (EHandleMsg usrid msg) (set_game (HandleMsg (game (cs w)) usrid msg) w).

(** [publishHandler]; the second component is the status written. *)
Definition publishHandler (w : world) (r : Request) : world * Z :=
  if decide (Method r ≠ "POST") then (w, StatusMethodNotAllowed)
  else
    let body := MaxBytesReader (Body r) 8192 in
    let '(msg, err) := ReadAll body in
    match err with
    | Some _ => (w, StatusRequestEntityTooLarge)
    | None => (publish (handle w (RemoteAddr r) msg) msg, StatusAccepted)
    end.

(** Whether the channel of the subscriber at [p] has no room left. *)
Definition queueFull (w : world) (p : ptr) : bool :=
  match heap w !! p with
  | Some s => bool_decide (s_cap s ≤ length (s_msgs s))
  | None => false
  end.

(** What the loop of [publish] does for the subscriber at [p]. *)
Definition fanout (msg : bytes) (w : world) (p : ptr) : effect :=
  if queueFull w p then EGoCloseSlow p else EEnqueue p msg.

(** The closure [closeSlow] of the subscriber at [p]. *)
Definition closeSlow (w : world) (p : ptr) : world :=
  match heap w !! p with
  | Some s =>
      let w1 := update p (set_closed true) w in
      match s_c s with
      | Some c =>
          emit (EClose c StatusPolicyViolation
                  "connection too slow to keep up with messages") w1
      | None => w1
      end
  | None => w
  end.

(** The end of [subscribeHandler]: what it does with the error that
    [subscribe] returned. *)
Definition subscribeHandler_end (w : world) (err : option error) : world :=
  if decide (err = Some Canceled) then w
  else if decide (CloseStatus err = StatusNormalClosure
                  ∨ CloseStatus err = StatusGoingAway) then w
  else match err with
       | Some e => emit (ELogSubscribe e) w
       | None => w
       end.

(** [subscribe] returns [err]: the deferred calls run, last registered
    first ([cancel] and [c.CloseNow] only once the session is active, then
    [deleteSubscriber]), and [subscribeHandler] finishes. *)
Definition subscribe_return (w : world) (p : ptr) (err : option error) : world :=
  match heap w !! p with
  | Some s =>
      let w1 := match s_stage s, s_c s with
                | Active, Some c => emit (ECloseNow c) w
                | _, _ => w
                end in
      let w2 := deleteSubscriber w1 p in
      subscribeHandler_end (update p (set_stage (Returned err)) w2) err
  | None => w
  end.

(** [subscribe] up to the call of [websocket.Accept]: the subscriber is
    allocated and registered, and its removal deferred. *)
Definition subscribe_begin (w : world) (remoteAddr : string) : world :=
  let p := fresh w in
  let s := {| s_id := remoteAddr; s_msgs := [];
              s_cap := subscriberMessageBuffer (cs w);
              s_c := None; s_closed := false;
              s_stage := Accepting; s_listen := NotStarted |} in
  addSubscriber (set_fresh (Pos.succ p) (set_heap (<[p := s]> (heap w)) w)) p.

(** [subscribe] from the answer of [websocket.Accept] to the start of the
    loops. *)
Definition subscribe_accept (w : world) (p : ptr) (r : conn + error) : world :=
  match heap w !! p with
  | Some s =>
      match s_stage s with
      | Accepting =>
          match r with
          | inr err => subscribe_return w p (Some err)
          | inl c2 =>
              if s_closed s then subscribe_return w p (Some ErrClosed)
              else update p (fun s => set_listen Listening
                                        (set_stage Active (set_c (Some c2) s))) w
          end
      | _ => w
      end
  | None => w
  end.

(** The context of a session:
    [context.WithTimeout(context.Background(), time.Minute*60)]. *)
Definition sessionCtx : context := WithTimeout Background (60 * Minute).

(** [writeTimeout]: [c.Write] under a context cut to [timeout]; [written]
    is what [c.Write] answers. *)
Definition writeTimeout (ctx : context) (timeout : Z) (c : conn) (msg : bytes)
    (written : option error) (w : world) : world * option error :=
  (emit (EWrite c (WithTimeout ctx timeout) msg) w, written).

(** One round of the write loop of [subscribe].  Only [cancel], which is
    deferred, and the deadline close [ctx.Done()], so inside the loop
    [ctx.Err()] is [DeadlineExceeded]. *)
Definition subscribe_select (w : world) (p : ptr) (sel : selected) : world :=
  match heap w !! p with
  | Some s =>
      match s_stage s, s_c s with
      | Active, Some c =>
          match sel with
          | RecvMsg written =>
              match s_msgs s with
              | msg :: rest =>
                  let w1 := update p (set_msgs rest) w in
                  let '(w2, err) :=
                    writeTimeout sessionCtx (5 * Second) c msg written w1 in
                  match err with
                  | Some e => subscribe_return w2 p (Some e)
                  | None => w2
                  end
              | [] => w
              end
          | Done => subscribe_return w p (Some DeadlineExceeded)
          end
      | _, _ => w
      end
  | None => w
  end.

(** [echo]: one frame read, handled and published.  (When reading the
    frame fails it also calls [http.Error] on the response writer of the
    upgraded request, which reaches no one.) *)
Definition echo (w : world) (remoteAddr : string) (rd : received)
    : world * option error :=
  match rd with
  | WaitFailed err => (w, Some err)
  | ReaderFailed err => (w, Some err)
  | ReadAllFailed err => (w, Some err)
  | Frame msg => (publish (handle w remoteAddr msg) msg, None)
  end.

(** One round of the loop of [listen].  [subscribe] starts it with [go],
    so what it returns is only kept here, in [s_listen]. *)
Definition listen (w : world) (p : ptr) (rd : received) : world :=
  match heap w !! p with
  | Some s =>
      match s_listen s with
      | Listening =>
          let '(w1, err) := echo w (s_id s) rd in
          if decide (CloseStatus err = StatusNormalClosure)
          then update p (set_listen (Exited None)) w1
          else match err with
               | Some e =>
                   update p (set_listen (Exited (Some e)))
                     (emit (ELogEcho (s_id s) e) w1)
               | None => w1
               end
      | _ => w
      end
  | None => w
  end.

(** One move of the system. *)
Definition step (w : world) (ev : event) : world :=
  match ev with
  | Subscribe remoteAddr => subscribe_begin w remoteAddr
  | Accepted p r => subscribe_accept w p r
  | Selected p sel => subscribe_select w p sel
  | Received p rd => listen w p rd
  | RunCloseSlow p =>
      if decide (p ∈ pending w)
      then closeSlow (set_pending (take_out p (pending w)) w) p
      else w
  | Post r => (publishHandler w r).1
  end.

Definition run (w : world) (evs : list event) : world := foldl step w evs.

(** The stages in which [subscribe] has registered its subscriber and has
    not returned yet. *)
Definition running (st : stage) : bool :=
  match st with
  | Returned _ => false
  | _ => true
  end.

(** What holds of every world the server can be in. *)
Record consistent (w : world) : Prop := {
  registry_running : forall p,
    p ∈ subscribers (cs w) <->
    exists s, heap w !! p = Some s /\ running (s_stage s) = true;
  heap_below_fresh : forall p, is_Some (heap w !! p) -> (p < fresh w)%positive;
  buffer_default : subscriberMessageBuffer (cs w) = 16;
  cap_default : forall p s, heap w !! p = Some s -> s_cap s = 16;
  active_conn : forall p s,
    heap w !! p = Some s -> s_stage s = Active -> is_Some (s_c s);
  accepting_nil : forall p s,
    heap w !! p = Some s -> s_stage s = Accepting -> s_c s = None
}.

(** What never goes back in the life of a subscriber: the flag [closed],
    once set, and the stage [Returned], once reached. *)
Definition evolves (s s' : subscriber) : Prop :=
  (s_closed s = true -> s_closed s' = true)
  /\ (forall err, s_stage s = Returned err -> s_stage s' = Returned err).

(** The worlds a server started by [newGameServerWith g] can be in. *)
Inductive reachable (g : G) : world -> Prop :=
  | reachable_init : reachable g (newGameServerWith g)
  | reachable_step w ev : reachable g w -> reachable g (step w ev).

End server.

Arguments gameServer : clear implicits.
Arguments world : clear implicits.

(** [newGameServer]: the game is [games.NewHilo()]. *)
Definition newGameServer : world HiLo := newGameServerWith NewHilo.

(** ** Sample inputs and runs *)

Definition hello : bytes :=
  [Byte.x68; Byte.x65; Byte.x6c; Byte.x6c; Byte.x6f].

Definition postHello : Request :=
  {| Method := "POST"; RemoteAddr := "10.0.0.9:4000";
     Body := {| r_data := hello; r_err := None |} |}.

(** A POST whose body breaks off after two bytes. *)
Definition cutPost : Request :=
  {| Method := "POST"; RemoteAddr := "10.0.0.9:4000";
     Body := {| r_data := [Byte.x68; Byte.x65];
                r_err := Some (IOError "unexpected EOF") |} |}.

(** One client inside the handshake. *)
Definition oneAccepting : world HiLo :=
  run newGameServer [Subscribe "10.0.0.1:5000"].

(** One client connected. *)
Definition oneActive : world HiLo :=
  run oneAccepting [Accepted 1%positive (inl 7%positive)].

(** The same client after sixteen messages it has not read. *)
Definition oneStalled : world HiLo :=
  run oneActive (replicate 16 (Post postHello)).

(** The stalled client once a seventeenth message has been published:
    its [closeSlow] is spawned and has not run yet. *)
Definition oneEvicting : world HiLo :=
  run oneStalled [Post postHello].

(** The same client with one message waiting. *)
Definition oneQueued : world HiLo :=
  run oneActive [Post postHello].

(** A client evicted while it is still inside the handshake: sixteen
    messages fill its queue, the seventeenth spawns [closeSlow], which
    runs before [websocket.Accept] returns. *)
Definition closedEarly : world HiLo :=
  run oneAccepting (replicate 17 (Post postHello) ++ [RunCloseSlow 1%positive]).

(** The connected client when the sixty minutes of its session are over
    and nothing has been published. *)
Definition expired : world HiLo :=
  run oneActive [Selected 1%positive Done].

(** The connected client after its connection broke under the read loop. *)
Definition readBroken : world HiLo :=
  run oneActive
    [Received 1%positive (ReaderFailed (IOError "connection reset by peer"))].

(** The subscriber of these runs, as the heap holds it. *)
Definition waiting : subscriber :=
  {| s_id := "10.0.0.1:5000"; s_msgs := []; s_cap := 16; s_c := None;
     s_closed := false; s_stage := Accepting; s_listen := NotStarted |}.

Definition connected : subscriber :=
  {| s_id := "10.0.0.1:5000"; s_msgs := []; s_cap := 16;
     s_c := Some 7%positive; s_closed := false; s_stage := Active;
     s_listen := Listening |}.

(** ** The life of a subscriber *)

(** The subscriber [subscribe] allocates for the request from
    [remoteAddr], with a channel of [cap] messages. *)
Definition newSubscriber (remoteAddr : string) (cap : nat) : subscriber :=
  {| s_id := remoteAddr; s_msgs := []; s_cap := cap; s_c := None;
     s_closed := false; s_stage := Accepting; s_listen := NotStarted |}.

(** The stages in the order [subscribe] goes through them. *)
Definition rank (st : stage) : nat :=
  match st with
  | Accepting => 0
  | Active => 1
  | Returned _ => 2
  end.

(** Everything the server does to a subscriber it has allocated, one
    assignment at a time; [evicting] says whether a spawned [closeSlow] of
    this subscriber is what runs. *)
Inductive change (evicting : Prop) : subscriber -> subscriber -> Prop :=
  | change_none s : change evicting s s
  | change_enqueue s msg :
      length (s_msgs s) < s_cap s ->
      change evicting s (set_msgs (s_msgs s ++ [msg]) s)
  | change_dequeue s msg rest :
      s_stage s = Active -> s_msgs s = msg :: rest ->
      change evicting s (set_msgs rest s)
  | change_accept s c :
      s_stage s = Accepting -> s_closed s = false ->
      change evicting s
        (set_listen Listening (set_stage Active (set_c (Some c) s)))
  | change_return s err :
      running (s_stage s) = true ->
      change evicting s (set_stage (Returned (Some err)) s)
  | change_listen s err :
      s_listen s = Listening ->
      change evicting s (set_listen (Exited err) s)
  | change_closed s :
      evicting -> change evicting s (set_closed true s)
  | change_then s1 s2 s3 :
      change evicting s1 s2 -> change evicting s2 s3 -> change evicting s1 s3.

(** The calls the server makes on the outside, as the source writes them:
    the only close code is policy violation with its fixed reason, every
    write runs under five seconds within the session's sixty minutes, and
    [subscribeHandler] keeps the ends it expects out of the log. *)
Definition allowed (e : effect) : Prop :=
  match e with
  | EClose _ code reason =>
      code = StatusPolicyViolation
      /\ reason = "connection too slow to keep up with messages"
  | EWrite _ ctx _ =>
      ctx = WithTimeout (WithTimeout Background (60 * Minute)) (5 * Second)
  | ELogSubscribe err =>
      err ≠ Canceled
      /\ CloseStatus (Some err) ≠ StatusNormalClosure
      /\ CloseStatus (Some err) ≠ StatusGoingAway
  | ELogEcho _ err => CloseStatus (Some err) ≠ StatusNormalClosure
  | _ => True
  end.

Section history.
Context {G : Type} `{!Game G}.

(** The game after the calls of [HandleMsg] recorded in [l]. *)
Definition replay (g : G) (l : list effect) : G :=
  foldl (fun g e => match e with
                    | EHandleMsg usrid msg => HandleMsg g usrid msg
                    | _ => g
                    end) g l.

(** [w'] comes after [w]: the trace has grown by allowed calls, the game
    has seen the messages handled in between, and whatever is newly
    spawned was spawned in between. *)
Definition extends (w w' : world G) : Prop :=
  exists l,
    trace w' = trace w ++ l
    /\ Forall allowed l
    /\ game (cs w') = replay (game (cs w)) l
    /\ (forall p, p ∈ pending w' -> p ∈ pending w \/ EGoCloseSlow p ∈ l).

(** [n] rounds of the write loop of the subscriber at [p], each write
    answered without error. *)
Definition rounds (n : nat) (p : ptr) : list event :=
  replicate n (Selected p (RecvMsg None)).

End history.

(** ** More sample runs *)

(** The stalled client once its spawned [closeSlow] has run. *)
Definition oneEvicted : world HiLo :=
  run oneEvicting [RunCloseSlow 1%positive].

(** ** Closing a connection *)

(** Whether [e] is a call that closes the connection [c]: [c.Close] or
    [c.CloseNow]. *)
Definition closes (c : conn) (e : effect) : bool :=
  match e with
  | EClose c' _ _ => bool_decide (c' = c)
  | ECloseNow c' => bool_decide (c' = c)
  | _ => false
  end.

(** The subscriber of [closedEarly]: sixteen messages queued, marked
    closed, still inside the handshake. *)
Definition evictedWaiting : subscriber :=
  {| s_id := "10.0.0.1:5000"; s_msgs := replicate 16 hello; s_cap := 16;
     s_c := None; s_closed := true; s_stage := Accepting;
     s_listen := NotStarted |}.

(** [closedEarly] once the handshake has succeeded and handed out the
    connection 7, and then some: another message is published, the deadline
    of a session passes, and the spawned calls that are left run. *)
Definition closedEarlyAccepted : world HiLo :=
  run closedEarly [Accepted 1%positive (inl 7%positive)].

Definition closedEarlyLater : world HiLo :=
  run closedEarlyAccepted
    [Post postHello; Selected 1%positive Done;
     Selected 1%positive (RecvMsg None); RunCloseSlow 1%positive;
     Received 1%positive (ReaderFailed (IOError "connection reset by peer"))].

(** * Properties *)

Section properties.
Context {G : Type} `{!Game G}.
Implicit Types (w : world G) (p q : ptr) (s : subscriber) (msg : bytes).

(** ** The loop of [publish] *)

Lemma chanTrySend_full s msg :
  s_cap s ≤ length (s_msgs s) -> chanTrySend s msg = None.
Proof. intros Hfull. unfold chanTrySend. case_decide; [lia | done]. Qed.

Lemma chanTrySend_room s msg :
  length (s_msgs s) < s_cap s ->
  chanTrySend s msg = Some (set_msgs (s_msgs s ++ [msg]) s).
Proof. intros Hroom. unfold chanTrySend. case_decide; [done | lia]. Qed.

Lemma trySend_cs msg w p : cs (trySend msg w p) = cs w.
Proof.
  unfold trySend. destruct (heap w !! p) as [s|]; [|done].
  by destruct (chanTrySend s msg).
Qed.

Lemma trySend_fresh msg w p : fresh (trySend msg w p) = fresh w.
Proof.
  unfold trySend. destruct (heap w !! p) as [s|]; [|done].
  by destruct (chanTrySend s msg).
Qed.

Lemma trySend_heap_ne msg w p q :
  p ≠ q -> heap (trySend msg w p) !! q = heap w !! q.
Proof.
  intros Hne. unfold trySend. destruct (heap w !! p) as [s|]; [|done].
  destruct (chanTrySend s msg); simpl; [by rewrite lookup_insert_ne | done].
Qed.

Lemma trySend_heap_eq msg w p s :
  heap w !! p = Some s ->
  heap (trySend msg w p) !! p = Some (default s (chanTrySend s msg)).
Proof.
  intros Hs. unfold trySend. rewrite Hs.
  destruct (chanTrySend s msg); simpl; [by rewrite lookup_insert_eq | done].
Qed.

Lemma trySend_pending msg w p :
  pending (trySend msg w p) = pending w ++ (if queueFull w p then [p] else []).
Proof.
  unfold trySend, queueFull, chanTrySend.
  destruct (heap w !! p) as [s|]; simpl; [|by rewrite app_nil_r].
  case_decide; simpl.
  - rewrite bool_decide_eq_false_2; [by rewrite app_nil_r | lia].
  - rewrite bool_decide_eq_true_2; [done | lia].
Qed.

Lemma trySend_trace msg w p :
  is_Some (heap w !! p) ->
  trace (trySend msg w p) = trace w ++ [fanout msg w p].
Proof.
  intros [s Hs]. unfold trySend, fanout, queueFull, chanTrySend. rewrite Hs.
  case_decide; simpl.
  - rewrite bool_decide_eq_false_2; [done | lia].
  - rewrite bool_decide_eq_true_2; [done | lia].
Qed.

Lemma queueFull_ext w w' p :
  heap w' !! p = heap w !! p -> queueFull w' p = queueFull w p.
Proof. unfold queueFull. by intros ->. Qed.

Lemma fanout_ext msg w w' p :
  heap w' !! p = heap w !! p -> fanout msg w' p = fanout msg w p.
Proof. intros Heq. unfold fanout. by rewrite (queueFull_ext _ _ _ Heq). Qed.

Lemma filter_queueFull_ext w w' (l : list ptr) :
  (forall p, p ∈ l -> heap w' !! p = heap w !! p) ->
  filter (fun p => queueFull w' p) l = filter (fun p => queueFull w p) l.
Proof.
  induction l as [|a l IH]; intros Hl; [done|].
  rewrite !filter_cons, (queueFull_ext w w' a), IH.
  - done.
  - intros p Hp. apply Hl. by right.
  - apply Hl. by left.
Qed.

Lemma map_fanout_ext msg w w' (l : list ptr) :
  (forall p, p ∈ l -> heap w' !! p = heap w !! p) ->
  map (fanout msg w') l = map (fanout msg w) l.
Proof.
  induction l as [|a l IH]; intros Hl; [done|]. simpl.
  rewrite (fanout_ext msg w w' a), IH.
  - done.
  - intros p Hp. apply Hl. by right.
  - apply Hl. by left.
Qed.

(** The loop over a list of distinct subscribers, field by field. *)
Lemma loop_cs msg (l : list ptr) w : cs (foldl (trySend msg) w l) = cs w.
Proof.
  revert w. induction l as [|a l IH]; intros w; simpl; [done|].
  by rewrite IH, trySend_cs.
Qed.

Lemma loop_fresh msg (l : list ptr) w :
  fresh (foldl (trySend msg) w l) = fresh w.
Proof.
  revert w. induction l as [|a l IH]; intros w; simpl; [done|].
  by rewrite IH, trySend_fresh.
Qed.

Lemma loop_heap_notin msg (l : list ptr) w q :
  q ∉ l -> heap (foldl (trySend msg) w l) !! q = heap w !! q.
Proof.
  revert w. induction l as [|a l IH]; intros w Hq; simpl; [done|].
  apply not_elem_of_cons in Hq as [Hne Hq].
  rewrite IH by done. by apply trySend_heap_ne.
Qed.

Lemma loop_heap_in msg (l : list ptr) w q s :
  NoDup l -> q ∈ l -> heap w !! q = Some s ->
  heap (foldl (trySend msg) w l) !! q = Some (default s (chanTrySend s msg)).
Proof.
  revert w. induction l as [|a l IH]; intros w Hnd Hq Hs; simpl.
  - by apply elem_of_nil in Hq.
  - apply NoDup_cons in Hnd as [Ha Hnd].
    destruct (decide (a = q)) as [->|Hne].
    + rewrite loop_heap_notin by done. by apply trySend_heap_eq.
    + apply elem_of_cons in Hq as [->|Hq]; [done|].
      apply IH; [done..|]. by rewrite trySend_heap_ne.
Qed.

Lemma loop_heap_none msg (l : list ptr) w q :
  heap w !! q = None -> heap (foldl (trySend msg) w l) !! q = None.
Proof.
  revert w. induction l as [|a l IH]; intros w Hq; simpl; [done|].
  apply IH. destruct (decide (a = q)) as [->|Hne].
  - unfold trySend. by rewrite Hq.
  - by rewrite trySend_heap_ne.
Qed.

Lemma loop_pending msg (l : list ptr) w :
  NoDup l ->
  pending (foldl (trySend msg) w l)
  = pending w ++ filter (fun p => queueFull w p) l.
Proof.
  revert w. induction l as [|a l IH]; intros w Hnd; simpl.
  - by rewrite app_nil_r.
  - apply NoDup_cons in Hnd as [Ha Hnd].
    rewrite IH, trySend_pending, filter_cons by done.
    rewrite (filter_queueFull_ext w (trySend msg w a)).
    + rewrite <- app_assoc. by destruct (queueFull w a).
    + intros p Hp. apply trySend_heap_ne. by intros ->.
Qed.

Lemma loop_trace msg (l : list ptr) w :
  NoDup l -> (forall p, p ∈ l -> is_Some (heap w !! p)) ->
  trace (foldl (trySend msg) w l) = trace w ++ map (fanout msg w) l.
Proof.
  revert w. induction l as [|a l IH]; intros w Hnd Hl; simpl.
  - by rewrite app_nil_r.
  - apply NoDup_cons in Hnd as [Ha Hnd].
    assert (forall p, p ∈ l -> heap (trySend msg w a) !! p = heap w !! p) as Hsame.
    { intros p Hp. apply trySend_heap_ne. by intros ->. }
    rewrite IH, trySend_trace, (map_fanout_ext msg w _ l Hsame), <- app_assoc.
    + done.
    + apply Hl. by left.
    + done.
    + intros p Hp. rewrite Hsame by done. apply Hl. by right.
Qed.

(** ** [publish] as a whole *)

Lemma publish_subscribers w msg :
  subscribers (cs (publish w msg)) = subscribers (cs w).
Proof. unfold publish. by rewrite loop_cs. Qed.

Lemma publish_cs w msg : cs (publish w msg) = cs w.
Proof. unfold publish. by rewrite loop_cs. Qed.

Lemma publish_fresh w msg : fresh (publish w msg) = fresh w.
Proof. unfold publish. by rewrite loop_fresh. Qed.

Lemma publish_heap_other w msg p :
  p ∉ subscribers (cs w) -> heap (publish w msg) !! p = heap w !! p.
Proof.
  intros Hp. unfold publish. apply loop_heap_notin.
  by rewrite elem_of_elements.
Qed.

Lemma publish_heap_registered w msg p s :
  p ∈ subscribers (cs w) -> heap w !! p = Some s ->
  heap (publish w msg) !! p = Some (default s (chanTrySend s msg)).
Proof.
  intros Hp Hs. unfold publish. apply loop_heap_in; [|by rewrite elem_of_elements|done].
  apply NoDup_elements.
Qed.

Lemma publish_pending w msg :
  pending (publish w msg)
  = pending w ++ filter (fun p => queueFull w p) (elements (subscribers (cs w))).
Proof. unfold publish. apply loop_pending, NoDup_elements. Qed.

Lemma publish_trace w msg :
  (forall p, p ∈ subscribers (cs w) -> is_Some (heap w !! p)) ->
  trace (publish w msg)
  = trace w ++ map (fanout msg w) (elements (subscribers (cs w))).
Proof.
  intros Hreg. unfold publish. apply loop_trace; [apply NoDup_elements|].
  intros p Hp. apply Hreg. by apply elem_of_elements.
Qed.

(** [publish] touches nothing of a subscriber but its queue. *)
Lemma publish_heap_queue w msg p :
  match heap w !! p with
  | Some s => exists k, heap (publish w msg) !! p = Some (set_msgs k s)
  | None => heap (publish w msg) !! p = None
  end.
Proof.
  destruct (decide (p ∈ subscribers (cs w))) as [Hp|Hp].
  - destruct (heap w !! p) as [s|] eqn:Hs.
    + rewrite (publish_heap_registered w msg p s) by done.
      unfold chanTrySend. case_decide; simpl; [by eexists|].
      exists (s_msgs s). by destruct s.
    + unfold publish. by apply loop_heap_none.
  - rewrite publish_heap_other by done.
    destruct (heap w !! p) as [s|]; [|done]. exists (s_msgs s). by destruct s.
Qed.

(** ** The invariant *)

Lemma consistent_queues w w' :
  subscribers (cs w') = subscribers (cs w) ->
  subscriberMessageBuffer (cs w') = subscriberMessageBuffer (cs w) ->
  fresh w' = fresh w ->
  (forall p, match heap w !! p with
             | Some s => exists k, heap w' !! p = Some (set_msgs k s)
             | None => heap w' !! p = None
             end) ->
  consistent w -> consistent w'.
Proof.
  intros Hsub Hbuf Hfresh Hheap [Hreg Hlt Hdef Hcap Hact Hacc].
  assert (forall p s', heap w' !! p = Some s' ->
            exists s k, heap w !! p = Some s /\ s' = set_msgs k s) as Hback.
  { intros p s' Hs'. specialize (Hheap p).
    destruct (heap w !! p) as [s|]; [|congruence].
    destruct Hheap as [k Hk]. exists s, k. split; [done | congruence]. }
  split.
  - intros p. rewrite Hsub, Hreg. split.
    + intros (s & Hs & Hrun). specialize (Hheap p). rewrite Hs in Hheap.
      destruct Hheap as [k Hk]. by exists (set_msgs k s).
    + intros (s' & Hs' & Hrun). destruct (Hback _ _ Hs') as (s & k & Hs & ->).
      by exists s.
  - intros p [s' Hs']. rewrite Hfresh. apply Hlt.
    destruct (Hback _ _ Hs') as (s & k & Hs & _). by exists s.
  - by rewrite Hbuf.
  - intros p s' Hs'. destruct (Hback _ _ Hs') as (s & k & Hs & ->).
    simpl. by apply (Hcap p).
  - intros p s' Hs'. destruct (Hback _ _ Hs') as (s & k & Hs & ->).
    simpl. by apply (Hact p).
  - intros p s' Hs'. destruct (Hback _ _ Hs') as (s & k & Hs & ->).
    simpl. by apply (Hacc p).
Qed.

Lemma consistent_same w w' :
  subscribers (cs w') = subscribers (cs w) ->
  subscriberMessageBuffer (cs w') = subscriberMessageBuffer (cs w) ->
  fresh w' = fresh w -> heap w' = heap w ->
  consistent w -> consistent w'.
Proof.
  intros Hsub Hbuf Hfresh Hheap. apply consistent_queues; [done..|].
  intros p. rewrite Hheap. destruct (heap w !! p) as [s|]; [|done].
  exists (s_msgs s). by destruct s.
Qed.

Lemma consistent_publish w msg : consistent w -> consistent (publish w msg).
Proof.
  apply consistent_queues.
  - apply publish_subscribers.
  - by rewrite publish_cs.
  - apply publish_fresh.
  - intros p. apply publish_heap_queue.
Qed.

Lemma consistent_handle w usrid msg :
  consistent w -> consistent (handle w usrid msg).
Proof. by apply consistent_same. Qed.

Lemma consistent_publishHandler w r :
  consistent w -> consistent (publishHandler w r).1.
Proof.
  intros Hw. unfold publishHandler. case_decide; [done|].
  destruct (ReadAll _) as [msg [e|]]; [done|].
  by apply consistent_publish, consistent_handle.
Qed.

Lemma consistent_init (g : G) : consistent (newGameServerWith g).
Proof.
  split; simpl; try done.
  - intros p. split; [set_solver|]. by intros (s & Hs & _).
  - by intros p [s Hs].
Qed.

Lemma consistent_update w p (f : subscriber -> subscriber) :
  (forall s, heap w !! p = Some s ->
     s_cap (f s) = s_cap s
     /\ running (s_stage (f s)) = running (s_stage s)
     /\ (s_stage (f s) = Active -> is_Some (s_c (f s)))
     /\ (s_stage (f s) = Accepting -> s_c (f s) = None)) ->
  consistent w -> consistent (update p f w).
Proof.
  intros Hf [Hreg Hlt Hdef Hcap Hact Hacc].
  assert (forall q s', alter f p (heap w) !! q = Some s' ->
            exists s, heap w !! q = Some s
                      /\ (q = p /\ s' = f s \/ q ≠ p /\ s' = s)) as Hback.
  { intros q s'. rewrite lookup_alter. case_decide as Hqp.
    - subst q. destruct (heap w !! p) as [s|]; simpl; [|done].
      intros [= <-]. exists s. split; [done|]. by left.
    - intros Hs'. exists s'. split; [done|]. right. split; [congruence|done]. }
  split; simpl.
  - intros q. rewrite Hreg. split.
    + intros (s & Hs & Hrun). rewrite lookup_alter. case_decide as Hqp.
      * subst q. rewrite Hs. simpl. exists (f s). split; [done|].
        destruct (Hf s Hs) as (_ & -> & _). done.
      * by exists s.
    + intros (s' & Hs' & Hrun).
      destruct (Hback _ _ Hs') as (s & Hs & [[-> ->]|[_ ->]]).
      * exists s. split; [done|]. destruct (Hf s Hs) as (_ & <- & _). done.
      * by exists s.
  - intros q [s' Hs']. apply Hlt.
    destruct (Hback _ _ Hs') as (s & Hs & _). by exists s.
  - done.
  - intros q s' Hs'.
    destruct (Hback _ _ Hs') as (s & Hs & [[-> ->]|[_ ->]]).
    + destruct (Hf s Hs) as (-> & _). by apply (Hcap p).
    + by apply (Hcap q).
  - intros q s' Hs' Hst.
    destruct (Hback _ _ Hs') as (s & Hs & [[-> ->]|[_ ->]]).
    + destruct (Hf s Hs) as (_ & _ & Ha & _). by apply Ha.
    + by apply (Hact q).
  - intros q s' Hs' Hst.
    destruct (Hback _ _ Hs') as (s & Hs & [[-> ->]|[_ ->]]).
    + destruct (Hf s Hs) as (_ & _ & _ & Ha). by apply Ha.
    + by apply (Hacc q).
Qed.

Lemma consistent_emit w e : consistent w -> consistent (emit e w).
Proof. by apply consistent_same. Qed.

Lemma consistent_set_pending w l : consistent w -> consistent (set_pending l w).
Proof. by apply consistent_same. Qed.

Lemma consistent_subscribeHandler_end w err :
  consistent w -> consistent (subscribeHandler_end w err).
Proof.
  intros Hw. unfold subscribeHandler_end. repeat case_decide; try done.
  destruct err; [by apply consistent_emit | done].
Qed.

(** Leaving [subscribe] takes the subscriber out of the registry and
    marks its session as returned. *)
Lemma consistent_leave w p err :
  consistent w ->
  consistent (update p (set_stage (Returned err)) (deleteSubscriber w p)).
Proof.
  intros [Hreg Hlt Hdef Hcap Hact Hacc]. split; simpl.
  - intros q. rewrite elem_of_difference, elem_of_singleton, Hreg, lookup_alter.
    case_decide as Hqp.
    + subst q. split; [by intros [_ []]|].
      intros (s' & Hs' & Hrun). destruct (heap w !! p); simplify_eq/=.
    + split; [by intros [? _] | done].
  - intros q. rewrite lookup_alter. case_decide as Hqp; [subst q|by apply Hlt].
    intros [s' Hs']. apply Hlt. destruct (heap w !! p); simplify_eq/=. by eexists.
  - done.
  - intros q s'. rewrite lookup_alter. case_decide as Hqp; [subst q|by apply Hcap].
    destruct (heap w !! p) as [s|] eqn:Hs; simpl; [|done].
    intros [= <-]. simpl. by apply (Hcap p).
  - intros q s'. rewrite lookup_alter. case_decide as Hqp; [subst q|by apply Hact].
    destruct (heap w !! p) as [s|] eqn:Hs; simpl; [|done]. by intros [= <-].
  - intros q s'. rewrite lookup_alter. case_decide as Hqp; [subst q|by apply Hacc].
    destruct (heap w !! p) as [s|] eqn:Hs; simpl; [|done]. by intros [= <-].
Qed.

Lemma consistent_subscribe_return w p err :
  consistent w -> consistent (subscribe_return w p err).
Proof.
  intros Hw. unfold subscribe_return. destruct (heap w !! p) as [s|]; [|done].
  apply consistent_subscribeHandler_end.
  destruct (s_stage s), (s_c s);
    first [ by apply consistent_leave
          | by apply (consistent_leave (emit _ w)), consistent_emit ].
Qed.

Lemma consistent_subscribe_begin w remoteAddr :
  consistent w -> consistent (subscribe_begin w remoteAddr).
Proof.
  intros [Hreg Hlt Hdef Hcap Hact Hacc].
  assert (heap w !! fresh w = None) as Hnew.
  { destruct (heap w !! fresh w) eqn:Hs; [|done].
    assert (fresh w < fresh w)%positive by (apply Hlt; by eexists). lia. }
  split; simpl.
  - intros q. rewrite elem_of_union, elem_of_singleton, Hreg, lookup_insert.
    case_decide as Hqp.
    + subst q. split; [by eexists|by left].
    + split; [intros [?|?]; [congruence|done] | by right].
  - intros q. rewrite lookup_insert. case_decide as Hqp; [subst q; lia|].
    intros Hq. specialize (Hlt q Hq). lia.
  - done.
  - intros q s'. rewrite lookup_insert. case_decide as Hqp; [|by apply Hcap].
    by intros [= <-].
  - intros q s'. rewrite lookup_insert. case_decide as Hqp; [|by apply Hact].
    by intros [= <-].
  - intros q s'. rewrite lookup_insert. case_decide as Hqp; [|by apply Hacc].
    by intros [= <-].
Qed.

Lemma consistent_subscribe_accept w p r :
  consistent w -> consistent (subscribe_accept w p r).
Proof.
  intros Hw. unfold subscribe_accept.
  destruct (heap w !! p) as [s|] eqn:Hs; [|done].
  destruct (s_stage s) eqn:Hst; [|done..].
  destruct r as [c2|err]; [|by apply consistent_subscribe_return].
  destruct (s_closed s); [by apply consistent_subscribe_return|].
  apply consistent_update; [|done].
  intros s0 Hs0. assert (s0 = s) as -> by congruence.
  simpl. split_and!; [done| |by eexists|done].
  by rewrite Hst.
Qed.

Lemma consistent_subscribe_select w p sel :
  consistent w -> consistent (subscribe_select w p sel).
Proof.
  intros Hw. unfold subscribe_select.
  destruct (heap w !! p) as [s|] eqn:Hs; [|done].
  destruct (s_stage s) eqn:Hst; [done| |done].
  destruct (s_c s) as [c|] eqn:Hc; [|done].
  destruct sel as [written|]; [|by apply consistent_subscribe_return].
  destruct (s_msgs s) as [|msg rest]; [done|].
  unfold writeTimeout.
  assert (consistent (emit (EWrite c (WithTimeout sessionCtx (5 * Second)) msg)
                        (update p (set_msgs rest) w))) as Hw1.
  { apply consistent_emit, consistent_update; [|done].
    intros s0 Hs0. simpl. split_and!; [done..| |].
    - intros Hact. by apply (active_conn w Hw p s0).
    - intros Hacc. by apply (accepting_nil w Hw p s0). }
  destruct written as [e|]; [by apply consistent_subscribe_return | done].
Qed.

Lemma consistent_closeSlow w p : consistent w -> consistent (closeSlow w p).
Proof.
  intros Hw. unfold closeSlow. destruct (heap w !! p) as [s|] eqn:Hs; [|done].
  assert (consistent (update p (set_closed true) w)) as Hw1.
  { apply consistent_update; [|done].
    intros s0 Hs0. simpl. split_and!; [done..| |].
    - intros Hact. by apply (active_conn w Hw p s0).
    - intros Hacc. by apply (accepting_nil w Hw p s0). }
  destruct (s_c s); [by apply consistent_emit | done].
Qed.

Lemma consistent_set_listen w p l :
  consistent w -> consistent (update p (set_listen l) w).
Proof.
  intros Hw. apply consistent_update; [|done].
  intros s0 Hs0. simpl. split_and!; [done..| |].
  - intros Hact. by apply (active_conn w Hw p s0).
  - intros Hacc. by apply (accepting_nil w Hw p s0).
Qed.

Lemma consistent_echo w addr rd : consistent w -> consistent (echo w addr rd).1.
Proof.
  intros Hw. destruct rd; simpl; try done.
  by apply consistent_publish, consistent_handle.
Qed.

Lemma consistent_listen w p rd : consistent w -> consistent (listen w p rd).
Proof.
  intros Hw. unfold listen. destruct (heap w !! p) as [s|]; [|done].
  destruct (s_listen s); [done| |done].
  pose proof (consistent_echo w (s_id s) rd Hw) as Hw1.
  destruct (echo w (s_id s) rd) as [w1 err]. simpl in Hw1.
  case_decide; [by apply consistent_set_listen|].
  destruct err; [|done]. by apply consistent_set_listen, consistent_emit.
Qed.

Lemma consistent_step w ev : consistent w -> consistent (step w ev).
Proof.
  intros Hw. destruct ev; simpl.
  - by apply consistent_subscribe_begin.
  - by apply consistent_subscribe_accept.
  - by apply consistent_subscribe_select.
  - by apply consistent_listen.
  - case_decide; [|done]. by apply consistent_closeSlow, consistent_set_pending.
  - by apply consistent_publishHandler.
Qed.

Lemma reachable_consistent (g : G) w : reachable g w -> consistent w.
Proof.
  induction 1 as [|w ev _ IH]; [apply consistent_init | by apply consistent_step].
Qed.

Lemma reachable_run (g : G) w evs : reachable g w -> reachable g (run w evs).
Proof.
  revert w. induction evs as [|ev evs IH]; intros w Hw; [done|].
  simpl. apply IH. by constructor.
Qed.

(** ** Sets of addresses *)

Lemma not_elem_of_remove (X : gset ptr) p : p ∉ X ∖ {[p]}.
Proof. rewrite elem_of_difference, elem_of_singleton. by intros [_ []]. Qed.

Lemma remove_twice (X : gset ptr) p : X ∖ {[p]} ∖ {[p]} = X ∖ {[p]}.
Proof.
  apply set_eq. intros q. rewrite !elem_of_difference. tauto.
Qed.

Lemma remove_absent (X : gset ptr) p : p ∉ X -> X ∖ {[p]} = X.
Proof.
  intros Hp. apply set_eq. intros q.
  rewrite elem_of_difference, elem_of_singleton.
  split; [tauto|]. intros Hq. split; [done|]. by intros ->.
Qed.

(** ** Leaving [subscribe] *)

Lemma subscribeHandler_end_frame w err :
  cs (subscribeHandler_end w err) = cs w
  /\ heap (subscribeHandler_end w err) = heap w
  /\ pending (subscribeHandler_end w err) = pending w
  /\ exists tail, trace (subscribeHandler_end w err) = trace w ++ tail.
Proof.
  unfold subscribeHandler_end.
  repeat case_decide; try (split_and!; [done..|by exists []; rewrite app_nil_r]).
  destruct err as [e|]; (split_and!; [done..|]).
  - by exists [ELogSubscribe e].
  - exists []. by rewrite app_nil_r.
Qed.

Lemma subscribe_return_spec w p s err :
  heap w !! p = Some s ->
  heap (subscribe_return w p err) = alter (set_stage (Returned err)) p (heap w)
  /\ subscribers (cs (subscribe_return w p err)) = subscribers (cs w) ∖ {[p]}
  /\ pending (subscribe_return w p err) = pending w
  /\ exists tail,
       trace (subscribe_return w p err)
       = trace w ++ match s_stage s, s_c s with
                    | Active, Some c => [ECloseNow c]
                    | _, _ => []
                    end ++ tail.
Proof.
  intros Hs. unfold subscribe_return. rewrite Hs.
  match goal with |- context [subscribeHandler_end ?w0 err] =>
    destruct (subscribeHandler_end_frame w0 err) as (Hcs & Hheap & Hpe & tail & Htr)
  end.
  rewrite Hcs, Hheap, Hpe, Htr. clear Hcs Hheap Hpe Htr.
  split_and!; [by destruct (s_stage s), (s_c s)..|].
  exists tail. destruct (s_stage s), (s_c s); simpl; try done.
  by rewrite <- app_assoc.
Qed.

(** ** What never goes back *)

Lemma evolves_refl s : evolves s s.
Proof. by split. Qed.

Lemma evolves_trans s1 s2 s3 : evolves s1 s2 -> evolves s2 s3 -> evolves s1 s3.
Proof. intros [H1 H2] [H3 H4]. split; [tauto|]. intros err Herr. eauto. Qed.

Lemma evolves_update w q (f : subscriber -> subscriber) p s :
  (q = p -> evolves s (f s)) ->
  heap w !! p = Some s ->
  exists s', heap (update q f w) !! p = Some s' /\ evolves s s'.
Proof.
  intros Hf Hs. simpl. rewrite lookup_alter. case_decide as Hqp.
  - subst q. rewrite Hs. simpl. exists (f s). split; [done|]. by apply Hf.
  - exists s. split; [done | apply evolves_refl].
Qed.

Lemma evolves_publish w msg p s :
  heap w !! p = Some s ->
  exists s', heap (publish w msg) !! p = Some s' /\ evolves s s'.
Proof.
  intros Hs. pose proof (publish_heap_queue w msg p) as Hq. rewrite Hs in Hq.
  destruct Hq as [k Hk]. exists (set_msgs k s). split; [done | by split].
Qed.

Lemma evolves_subscribe_return w q err p s :
  (forall sq, heap w !! q = Some sq -> running (s_stage sq) = true) ->
  heap w !! p = Some s ->
  exists s', heap (subscribe_return w q err) !! p = Some s' /\ evolves s s'.
Proof.
  intros Hrun Hs. destruct (heap w !! q) as [sq|] eqn:Hq.
  - destruct (subscribe_return_spec w q sq err Hq) as (-> & _).
    rewrite lookup_alter. case_decide as Hqp.
    + subst q. assert (sq = s) as -> by congruence.
      rewrite Hs. simpl. eexists. split; [done|].
      specialize (Hrun s eq_refl). split; [done|].
      intros e He. rewrite He in Hrun. done.
    + exists s. split; [done | apply evolves_refl].
  - unfold subscribe_return. rewrite Hq. exists s. split; [done | apply evolves_refl].
Qed.

Lemma evolves_step w ev p s :
  consistent w -> heap w !! p = Some s ->
  exists s', heap (step w ev) !! p = Some s' /\ evolves s s'.
Proof.
  intros Hw Hs. destruct ev as [addr|q r|q sel|q rd|q|r]; simpl.
  - (* Subscribe: the new address is not [p] *)
    exists s. split; [|apply evolves_refl].
    rewrite lookup_insert_ne; [done|].
    assert (p < fresh w)%positive by (apply (heap_below_fresh w Hw); by eexists).
    lia.
  - (* Accepted *)
    unfold subscribe_accept. destruct (heap w !! q) as [sq|] eqn:Hq; [|eauto using evolves_refl].
    destruct (s_stage sq) eqn:Hst; [|eauto using evolves_refl..].
    assert (forall s0, heap w !! q = Some s0 -> running (s_stage s0) = true) as Hrun.
    { intros s0 Hs0. assert (s0 = sq) as -> by congruence. by rewrite Hst. }
    destruct r as [c2|err]; [|by apply evolves_subscribe_return].
    destruct (s_closed sq) eqn:Hcl; [by apply evolves_subscribe_return|].
    apply evolves_update; [|done].
    intros ->. assert (s = sq) as -> by congruence.
    split; simpl; [done|]. intros e He. congruence.
  - (* Selected *)
    unfold subscribe_select. destruct (heap w !! q) as [sq|] eqn:Hq; [|eauto using evolves_refl].
    destruct (s_stage sq) eqn:Hst; [eauto using evolves_refl| |eauto using evolves_refl].
    destruct (s_c sq) as [c|]; [|eauto using evolves_refl].
    assert (forall s0, heap w !! q = Some s0 -> running (s_stage s0) = true) as Hrun.
    { intros s0 Hs0. assert (s0 = sq) as -> by congruence. by rewrite Hst. }
    destruct sel as [written|]; [|by apply evolves_subscribe_return].
    destruct (s_msgs sq) as [|msg rest]; [eauto using evolves_refl|].
    unfold writeTimeout.
    destruct (evolves_update w q (set_msgs rest) p s) as (s1 & Hs1 & Hev1);
      [by split|done|].
    destruct written as [e|]; [|by exists s1].
    match goal with |- context [subscribe_return ?w0 q _] =>
      destruct (evolves_subscribe_return w0 q (Some e) p s1) as (s2 & Hs2 & Hev2)
    end.
    + simpl. intros s0. rewrite lookup_alter, decide_True by done. rewrite Hq. simpl.
      intros [= <-]. simpl. by rewrite Hst.
    + done.
    + exists s2. split; [done|]. by eapply evolves_trans.
  - (* Received *)
    unfold listen. destruct (heap w !! q) as [sq|] eqn:Hq; [|eauto using evolves_refl].
    destruct (s_listen sq); [eauto using evolves_refl| |eauto using evolves_refl].
    assert (exists s1, heap (echo w (s_id sq) rd).1 !! p = Some s1 /\ evolves s s1)
      as (s1 & Hs1 & Hev1).
    { destruct rd; simpl; eauto using evolves_refl.
      apply evolves_publish. done. }
    destruct (echo w (s_id sq) rd) as [w1 err]. simpl in Hs1.
    case_decide.
    + destruct (evolves_update w1 q (set_listen (Exited None)) p s1) as (s2 & Hs2 & Hev2);
        [by split|done|].
      exists s2. split; [done|]. by eapply evolves_trans.
    + destruct err as [e|]; [|by exists s1].
      destruct (evolves_update (emit (ELogEcho (s_id sq) e) w1) q
                  (set_listen (Exited (Some e))) p s1) as (s2 & Hs2 & Hev2);
        [by split|done|].
      exists s2. split; [done|]. by eapply evolves_trans.
  - (* RunCloseSlow *)
    case_decide; [|eauto using evolves_refl].
    unfold closeSlow. simpl. destruct (heap w !! q) as [sq|] eqn:Hq; [|eauto using evolves_refl].
    assert (exists s', alter (set_closed true) q (heap w) !! p = Some s' /\ evolves s s')
      as Hgoal.
    { apply (evolves_update w q (set_closed true) p s); [|done]. by split. }
    by destruct (s_c sq).
  - (* Post *)
    unfold publishHandler. case_decide; [eauto using evolves_refl|].
    destruct (ReadAll _) as [msg [e|]]; [eauto using evolves_refl|].
    simpl. by apply evolves_publish.
Qed.

Lemma evolves_run w evs p s :
  consistent w -> heap w !! p = Some s ->
  exists s', heap (run w evs) !! p = Some s' /\ evolves s s'.
Proof.
  revert w s. induction evs as [|ev evs IH]; intros w s Hw Hs; simpl.
  - exists s. split; [done | apply evolves_refl].
  - destruct (evolves_step w ev p s Hw Hs) as (s1 & Hs1 & Hev1).
    destruct (IH (step w ev) s1) as (s2 & Hs2 & Hev2);
      [by apply consistent_step|done|].
    exists s2. split; [done|]. by eapply evolves_trans.
Qed.

(** ** Fan-out *)

Lemma queueFull_spec w p s :
  heap w !! p = Some s -> (queueFull w p = true <-> s_cap s ≤ length (s_msgs s)).
Proof. intros Hs. unfold queueFull. rewrite Hs. apply bool_decide_eq_true. Qed.

Lemma fanout_inv msg w p q e :
  fanout msg w q = e -> (e = EEnqueue p msg \/ e = EGoCloseSlow p) -> q = p.
Proof.
  unfold fanout. destruct (queueFull w q); intros <- [Heq|Heq]; congruence.
Qed.

(** C1: [publish] handles every registered subscriber, whose queue holds
    at most sixteen messages, exactly once and without waiting for it: with
    room left the message is appended to its queue; with the queue full the
    queue and the subscriber stay as they are and one [closeSlow] is handed
    to a new goroutine.  Nothing else is done: one enqueue or one spawn per
    registered subscriber. *)
Theorem publish_fans_out (g : G) w msg p :
  reachable g w -> p ∈ subscribers (cs w) ->
  exists s evicted performed,
    heap w !! p = Some s /\ s_cap s = 16
    /\ pending (publish w msg) = pending w ++ evicted
    /\ trace (publish w msg) = trace w ++ performed
    /\ NoDup evicted
    /\ length performed = size (subscribers (cs w))
    /\ Forall (fun e => exists q, e = EEnqueue q msg \/ e = EGoCloseSlow q) performed
    /\ (length (s_msgs s) < 16 ->
         heap (publish w msg) !! p = Some (set_msgs (s_msgs s ++ [msg]) s)
         /\ EEnqueue p msg ∈ performed
         /\ (EGoCloseSlow p ∉ performed) /\ (p ∉ evicted))
    /\ (16 ≤ length (s_msgs s) ->
         heap (publish w msg) !! p = Some s
         /\ EGoCloseSlow p ∈ performed /\ p ∈ evicted
         /\ EEnqueue p msg ∉ performed).
Proof.
  intros Hreach Hp. apply reachable_consistent in Hreach as Hw.
  destruct (proj1 (registry_running w Hw p) Hp) as (s & Hs & _).
  pose proof (cap_default w Hw p s Hs) as Hcap.
  assert (forall q, q ∈ subscribers (cs w) -> is_Some (heap w !! q)) as Hall.
  { intros q Hq. destruct (proj1 (registry_running w Hw q) Hq) as (s' & Hs' & _).
    by eexists. }
  assert (p ∈ elements (subscribers (cs w))) as Hel by by apply elem_of_elements.
  exists s, (filter (fun q => queueFull w q) (elements (subscribers (cs w)))),
    (map (fanout msg w) (elements (subscribers (cs w)))).
  split_and!; try done.
  - apply publish_pending.
  - by apply publish_trace.
  - apply NoDup_filter, NoDup_elements.
  - by rewrite length_map.
  - apply Forall_forall. intros e (q & -> & _)%list_elem_of_fmap.
    exists q. unfold fanout. destruct (queueFull w q); auto.
  - intros Hroom.
    assert (queueFull w p = false) as Hnf.
    { destruct (queueFull w p) eqn:Hf; [|done].
      apply (queueFull_spec w p s Hs) in Hf. lia. }
    split_and!.
    + rewrite (publish_heap_registered w msg p s) by done.
      rewrite chanTrySend_room by lia. done.
    + apply list_elem_of_fmap. exists p. unfold fanout. by rewrite Hnf.
    + intros (q & Hq & _)%list_elem_of_fmap. symmetry in Hq.
      assert (q = p) as -> by (eapply fanout_inv; eauto).
      unfold fanout in Hq. by rewrite Hnf in Hq.
    + rewrite list_elem_of_filter. intros [Hf _]. by rewrite Hnf in Hf.
  - intros Hfull.
    assert (queueFull w p = true) as Hf.
    { apply (queueFull_spec w p s Hs). lia. }
    split_and!.
    + rewrite (publish_heap_registered w msg p s) by done.
      rewrite chanTrySend_full by lia. done.
    + apply list_elem_of_fmap. exists p. unfold fanout. by rewrite Hf.
    + apply list_elem_of_filter. by rewrite Hf.
    + intros (q & Hq & _)%list_elem_of_fmap. symmetry in Hq.
      assert (q = p) as -> by (eapply fanout_inv; eauto).
      unfold fanout in Hq. by rewrite Hf in Hq.
Qed.

(** ** The registry *)

(** C8: [deleteSubscriber] removes the subscriber when it is registered
    and changes nothing otherwise; deleting twice is deleting once, and the
    other subscribers stay as they are. *)
Theorem deleteSubscriber_idempotent w p :
  deleteSubscriber (deleteSubscriber w p) p = deleteSubscriber w p
  /\ (p ∉ subscribers (cs w) -> deleteSubscriber w p = w)
  /\ (p ∉ subscribers (cs (deleteSubscriber w p)))
  /\ (forall q, q ≠ p ->
        (q ∈ subscribers (cs (deleteSubscriber w p)) <-> q ∈ subscribers (cs w))).
Proof.
  destruct w as [[buf lim reg gm] hp fr pe tr].
  unfold deleteSubscriber, set_subscribers; simpl. split_and!.
  - do 2 f_equal. apply remove_twice.
  - intros Hp. do 2 f_equal. by apply remove_absent.
  - apply not_elem_of_remove.
  - intros q Hq. rewrite elem_of_difference, elem_of_singleton. tauto.
Qed.

(** C2 (amended): in every world the server can reach, a subscriber is in
    the registry exactly while its [subscribe] call has registered it and
    has not returned: from before the handshake ([Accepting]) through the
    loops ([Active]), and never after the call has returned. *)
Theorem registry_iff_running (g : G) w p :
  reachable g w ->
  (p ∈ subscribers (cs w) <->
   exists s, heap w !! p = Some s
             /\ (s_stage s = Accepting \/ s_stage s = Active)).
Proof.
  intros Hw%reachable_consistent. rewrite (registry_running w Hw p).
  split; intros (s & Hs & Hst); exists s; (split; [done|]).
  - destruct (s_stage s); [by left | by right | done].
  - by destruct Hst as [-> | ->].
Qed.

(** ** The one-shot publish *)

Lemma read_fails_iff (b : Reader) :
  (ReadAll (MaxBytesReader b 8192)).2 ≠ None
  <-> (8192 < Z.of_nat (length (r_data b)))%Z \/ r_err b ≠ None.
Proof.
  unfold ReadAll, MaxBytesReader. case_decide; simpl.
  - split; [by right | intros [?|?]; [lia | done]].
  - split; [intros _; left; lia | done].
Qed.

Lemma read_succeeds (b : Reader) :
  (Z.of_nat (length (r_data b)) <= 8192)%Z -> r_err b = None ->
  ReadAll (MaxBytesReader b 8192) = (r_data b, None).
Proof.
  intros Hlen Herr. unfold ReadAll, MaxBytesReader.
  rewrite decide_True by done. by rewrite Herr.
Qed.

Lemma publishHandler_rejects w r :
  Method r = "POST" -> (ReadAll (MaxBytesReader (Body r) 8192)).2 ≠ None ->
  publishHandler w r = (w, StatusRequestEntityTooLarge).
Proof.
  intros Hm Herr. unfold publishHandler. rewrite decide_False by by intros [].
  by destruct (ReadAll _) as [msg [e|]].
Qed.

Lemma publishHandler_accepts w r :
  Method r = "POST" ->
  (Z.of_nat (length (r_data (Body r))) <= 8192)%Z -> r_err (Body r) = None ->
  publishHandler w r
  = (publish (handle w (RemoteAddr r) (r_data (Body r))) (r_data (Body r)),
     StatusAccepted).
Proof.
  intros Hm Hlen Herr. unfold publishHandler. rewrite decide_False by by intros [].
  by rewrite read_succeeds.
Qed.

(** C3 (amended): a request to /publish that is not a POST is answered
    405 and changes nothing; a POST whose body is longer than 8192 bytes
    or cannot be read to its end is answered 413 and changes nothing; any
    other POST has its body handed to the game, then published, and is
    answered 202. *)
Theorem publishHandler_statuses (g : G) w r :
  reachable g w ->
  (Method r ≠ "POST" -> publishHandler w r = (w, 405%Z))
  /\ (Method r = "POST" ->
      (8192 < Z.of_nat (length (r_data (Body r))))%Z \/ r_err (Body r) ≠ None ->
      publishHandler w r = (w, 413%Z))
  /\ (Method r = "POST" ->
      (Z.of_nat (length (r_data (Body r))) <= 8192)%Z ->
      r_err (Body r) = None ->
      (publishHandler w r).2 = 202%Z
      /\ (publishHandler w r).1
         = publish (handle w (RemoteAddr r) (r_data (Body r))) (r_data (Body r))
      /\ game (cs (publishHandler w r).1)
         = HandleMsg (game (cs w)) (RemoteAddr r) (r_data (Body r))
      /\ trace (publishHandler w r).1
         = trace w ++ EHandleMsg (RemoteAddr r) (r_data (Body r))
                     :: map (fanout (r_data (Body r)) w)
                          (elements (subscribers (cs w)))).
Proof.
  intros Hw%reachable_consistent. split_and!.
  - intros Hm. unfold publishHandler. by rewrite decide_True.
  - intros Hm Hbad. apply publishHandler_rejects; [done|]. by apply read_fails_iff.
  - intros Hm Hlen Herr. rewrite publishHandler_accepts by done. simpl.
    split_and!; [done..| |].
    + by rewrite publish_cs.
    + rewrite publish_trace; simpl.
      * rewrite <- app_assoc. simpl. do 2 f_equal.
      * intros p Hp. destruct (proj1 (registry_running w Hw p) Hp) as (s & Hs & _).
        by eexists.
Qed.

(** C9: when reading the body of a POST fails, whether because the body
    is longer than 8192 bytes or because the reader breaks, the answer is
    413 and the world is the one before the request: the game has not
    seen the message and no queue has received it. *)
Theorem publishHandler_read_error w r :
  Method r = "POST" ->
  ((8192 < Z.of_nat (length (r_data (Body r))))%Z \/ r_err (Body r) ≠ None
   <-> (ReadAll (MaxBytesReader (Body r) 8192)).2 ≠ None)
  /\ ((ReadAll (MaxBytesReader (Body r) 8192)).2 ≠ None ->
      publishHandler w r = (w, 413%Z)).
Proof.
  intros Hm. split; [symmetry; apply read_fails_iff|].
  by apply publishHandler_rejects.
Qed.

Lemma publishHandler_status_of_request w w' r :
  (publishHandler w r).2 = (publishHandler w' r).2.
Proof.
  unfold publishHandler. case_decide; [done|].
  by destruct (ReadAll _) as [msg [e|]].
Qed.

(** ** Eviction *)

(** C6: run on a subscriber whose connection is stored, [closeSlow] marks
    it closed and closes the connection with the policy-violation code
    1008.  The publisher is told nothing of it: the status [publishHandler]
    answers does not depend on the state of the server, so it is the same
    with or without an eviction. *)
Theorem closeSlow_policy_violation w p s c :
  heap w !! p = Some s -> s_c s = Some c ->
  heap (closeSlow w p) !! p = Some (set_closed true s)
  /\ trace (closeSlow w p)
     = trace w ++ [EClose c 1008 "connection too slow to keep up with messages"]
  /\ (p ∈ pending w ->
      trace (step w (RunCloseSlow p))
      = trace w ++ [EClose c 1008 "connection too slow to keep up with messages"])
  /\ (forall r w', (publishHandler w' r).2 = (publishHandler w r).2).
Proof.
  intros Hs Hc. split_and!.
  - unfold closeSlow. rewrite Hs, Hc. simpl.
    by rewrite lookup_alter, decide_True, Hs.
  - unfold closeSlow. by rewrite Hs, Hc.
  - intros Hp. simpl. rewrite decide_True by done.
    unfold closeSlow. simpl. by rewrite Hs, Hc.
  - intros r w'. apply publishHandler_status_of_request.
Qed.

(** C10: [closeSlow] can run in any stage of the session: afterwards the
    flag [closed] of the subscriber is [true], and the rest of the
    subscriber and the registry are as they were.  While no connection is
    stored that is all it does: nothing is closed, and the server, the
    spawned calls and the trace are as before.  No move of the system
    resets [closed]: a flag that is set, and so the flag after [closeSlow]
    has run, is set after every sequence of events. *)
Theorem closeSlow_without_conn (g : G) w p s :
  reachable g w -> heap w !! p = Some s ->
  (s_c s = None ->
     heap (closeSlow w p) = <[p := set_closed true s]> (heap w)
     /\ cs (closeSlow w p) = cs w
     /\ pending (closeSlow w p) = pending w
     /\ trace (closeSlow w p) = trace w)
  /\ heap (closeSlow w p) !! p = Some (set_closed true s)
  /\ subscribers (cs (closeSlow w p)) = subscribers (cs w)
  /\ (s_closed s = true ->
      forall evs, exists s', heap (run w evs) !! p = Some s' /\ s_closed s' = true)
  /\ (exists s',
        heap (closeSlow w p) !! p = Some s' /\ s_closed s' = true
        /\ s_c s' = s_c s /\ s_stage s' = s_stage s /\ s_msgs s' = s_msgs s
        /\ s_listen s' = s_listen s /\ s_id s' = s_id s /\ s_cap s' = s_cap s)
  /\ (forall evs, exists s',
        heap (run (closeSlow w p) evs) !! p = Some s' /\ s_closed s' = true).
Proof.
  intros Hw%reachable_consistent Hs.
  assert (heap (closeSlow w p) !! p = Some (set_closed true s)) as Hafter.
  { unfold closeSlow. rewrite Hs. destruct (s_c s); simpl;
      by rewrite lookup_alter, decide_True, Hs. }
  split_and!.
  - intros Hc. unfold closeSlow. rewrite Hs, Hc. simpl. split_and!; [|done..].
    apply map_eq. intros q. rewrite lookup_alter, lookup_insert.
    case_decide; [subst q; by rewrite Hs | done].
  - done.
  - unfold closeSlow. rewrite Hs. by destruct (s_c s).
  - intros Hcl evs. destruct (evolves_run w evs p s Hw Hs) as (s' & Hs' & Hev & _).
    exists s'. split; [done | by apply Hev].
  - exists (set_closed true s). by split_and!.
  - intros evs.
    destruct (evolves_run (closeSlow w p) evs p (set_closed true s)
                (consistent_closeSlow w p Hw) Hafter) as (s' & Hs' & Hev & _).
    exists s'. split; [done | by apply Hev].
Qed.

(** ** The session *)

(** X17: when [closed] is already set as [websocket.Accept] returns,
    [subscribe] returns an error ([net.ErrClosed] if the handshake itself
    went well) without storing the connection or starting the loops, the
    subscriber leaves the registry, and the session stays returned
    whatever happens next.  (Nothing is said here of the connection that
    was accepted.) *)
Theorem closed_before_accept (g : G) w p s r :
  reachable g w -> heap w !! p = Some s ->
  s_stage s = Accepting -> s_closed s = true ->
  exists err,
    (forall c2, r = inl c2 -> err = ErrClosed)
    /\ (forall e, r = inr e -> err = e)
    /\ heap (subscribe_accept w p r) !! p
       = Some (set_stage (Returned (Some err)) s)
    /\ s_c s = None /\ s_listen (set_stage (Returned (Some err)) s) = s_listen s
    /\ (p ∉ subscribers (cs (subscribe_accept w p r)))
    /\ (forall evs, exists s',
          heap (run (subscribe_accept w p r) evs) !! p = Some s'
          /\ s_stage s' = Returned (Some err)).
Proof.
  intros Hreach Hs Hst Hcl. pose proof (reachable_consistent g w Hreach) as Hw.
  exists (match r with inl _ => ErrClosed | inr e => e end).
  assert (subscribe_accept w p r
          = subscribe_return w p
              (Some (match r with inl _ => ErrClosed | inr e => e end))) as Heq.
  { unfold subscribe_accept. rewrite Hs, Hst. destruct r; [by rewrite Hcl | done]. }
  rewrite Heq.
  destruct (subscribe_return_spec w p s
              (Some (match r with inl _ => ErrClosed | inr e => e end)) Hs)
    as (Hheap & Hsub & _).
  assert (heap (subscribe_return w p
                  (Some (match r with inl _ => ErrClosed | inr e => e end))) !! p
          = Some (set_stage
                    (Returned (Some (match r with inl _ => ErrClosed | inr e => e end))) s))
    as Hp.
  { rewrite Hheap, lookup_alter, decide_True by done. by rewrite Hs. }
  split_and!.
  - by intros c2 ->.
  - by intros e ->.
  - done.
  - by apply (accepting_nil w Hw p s).
  - done.
  - rewrite Hsub. apply not_elem_of_remove.
  - intros evs.
    match goal with |- context [run ?w0 evs] =>
      destruct (evolves_run w0 evs p _ (consistent_subscribe_return w p _ Hw) Hp)
        as (s' & Hs' & _ & Hev)
    end.
    exists s'. split; [done|]. by apply Hev.
Qed.

(** C4 (amended): in an active session, each payload received from the
    queue is written under a context that gives the send five seconds
    within the sixty minutes of the session; when the write answers an
    error (a timeout or a transport error) [subscribe] returns it, and
    when the context of the session is done [subscribe] returns
    [DeadlineExceeded], which [subscribeHandler] logs like any other
    error.  In both cases the connection is dropped with [CloseNow] and
    the subscriber is out of the registry when the call has returned. *)
Theorem write_loop_round w p s c :
  heap w !! p = Some s -> s_stage s = Active -> s_c s = Some c ->
  (forall msg rest written, s_msgs s = msg :: rest ->
     exists tail,
       trace (subscribe_select w p (RecvMsg written))
       = trace w
         ++ EWrite c (WithTimeout (WithTimeout Background (60 * Minute))
                        (5 * Second)) msg :: tail
       /\ match written with
          | None =>
              tail = []
              /\ heap (subscribe_select w p (RecvMsg written)) !! p
                 = Some (set_msgs rest s)
              /\ cs (subscribe_select w p (RecvMsg written)) = cs w
          | Some err =>
              (exists tail', tail = ECloseNow c :: tail')
              /\ heap (subscribe_select w p (RecvMsg written)) !! p
                 = Some (set_stage (Returned (Some err)) (set_msgs rest s))
              /\ (p ∉ subscribers (cs (subscribe_select w p (RecvMsg written))))
          end)
  /\ heap (subscribe_select w p Done) !! p
     = Some (set_stage (Returned (Some DeadlineExceeded)) s)
  /\ (p ∉ subscribers (cs (subscribe_select w p Done)))
  /\ trace (subscribe_select w p Done)
     = trace w ++ [ECloseNow c; ELogSubscribe DeadlineExceeded].
Proof.
  intros Hs Hst Hc. split_and!.
  - intros msg rest written Hq.
    unfold subscribe_select. rewrite Hs, Hst, Hc, Hq. unfold writeTimeout.
    set (w1 := emit _ (update p (set_msgs rest) w)).
    assert (heap w1 !! p = Some (set_msgs rest s)) as Hs1.
    { subst w1. simpl. by rewrite lookup_alter, decide_True, Hs. }
    destruct written as [err|].
    + destruct (subscribe_return_spec w1 p _ (Some err) Hs1)
        as (Hheap & Hsub & _ & tail & Htr).
      simpl in Htr. rewrite Hst, Hc in Htr.
      exists ([ECloseNow c] ++ tail). split_and!.
      * rewrite Htr. subst w1. simpl. unfold sessionCtx.
        by rewrite <- !app_assoc.
      * by exists tail.
      * rewrite Hheap, lookup_alter, decide_True by done. by rewrite Hs1.
      * rewrite Hsub. apply not_elem_of_remove.
    + exists []. by subst w1.
  - unfold subscribe_select. rewrite Hs, Hst, Hc.
    destruct (subscribe_return_spec w p s (Some DeadlineExceeded) Hs) as (-> & _).
    by rewrite lookup_alter, decide_True, Hs.
  - unfold subscribe_select. rewrite Hs, Hst, Hc.
    destruct (subscribe_return_spec w p s (Some DeadlineExceeded) Hs)
      as (_ & -> & _).
    apply not_elem_of_remove.
  - unfold subscribe_select, subscribe_return. rewrite Hs, Hst, Hc. simpl.
    by rewrite <- app_assoc.
Qed.

Lemma listen_subscribers w p rd :
  subscribers (cs (listen w p rd)) = subscribers (cs w).
Proof.
  unfold listen. destruct (heap w !! p) as [s|]; [|done].
  destruct (s_listen s); [done| |done].
  assert (subscribers (cs (echo w (s_id s) rd).1) = subscribers (cs w)) as Hsub.
  { destruct rd; simpl; try done. by rewrite publish_cs. }
  destruct (echo w (s_id s) rd) as [w1 err]. simpl in Hsub.
  case_decide; [done|]. by destruct err.
Qed.

Lemma listen_keeps_stage w p rd q sq :
  heap w !! q = Some sq ->
  exists sq', heap (listen w p rd) !! q = Some sq' /\ s_stage sq' = s_stage sq.
Proof.
  intros Hq. unfold listen. destruct (heap w !! p) as [s|]; [|by exists sq].
  destruct (s_listen s); [by exists sq| |by exists sq].
  assert (exists s1, heap (echo w (s_id s) rd).1 !! q = Some s1
                     /\ s_stage s1 = s_stage sq) as (s1 & Hs1 & Hst1).
  { destruct rd; simpl; try by exists sq.
    match goal with |- context [publish ?w0 ?m] =>
      pose proof (publish_heap_queue w0 m q) as Hk
    end.
    simpl in Hk. rewrite Hq in Hk. destruct Hk as [k Hk]. by eexists. }
  destruct (echo w (s_id s) rd) as [w1 err]. simpl in Hs1.
  assert (forall l w2, heap w2 = heap w1 ->
            exists sq', heap (update p (set_listen l) w2) !! q = Some sq'
                        /\ s_stage sq' = s_stage sq) as Hupd.
  { intros l w2 Hw2. simpl. rewrite Hw2, lookup_alter. case_decide.
    - subst q. rewrite Hs1. simpl. by eexists.
    - by exists s1. }
  case_decide; [by apply Hupd|].
  destruct err; [by apply Hupd | by exists s1].
Qed.

(** X18: what the read loop does, as the code stands, when a round of it
    fails (the limiter, the reader or the reading of the frame returns an
    error).  The loop ends: without error if the error is a closure with
    the normal-closure code, and otherwise, a going-away closure included,
    with that error, which it logs.  What the loop returns goes nowhere:
    the subscriber is otherwise as before, and no round of the read loop,
    failed or not, changes the stage of a session or the registry. *)
Theorem listen_round_fails w p s rd err :
  heap w !! p = Some s -> s_listen s = Listening ->
  rd = WaitFailed err \/ rd = ReaderFailed err \/ rd = ReadAllFailed err ->
  (CloseStatus (Some err) = 1000%Z ->
     heap (listen w p rd) = <[p := set_listen (Exited None) s]> (heap w)
     /\ trace (listen w p rd) = trace w)
  /\ (CloseStatus (Some err) ≠ 1000%Z ->
     heap (listen w p rd) = <[p := set_listen (Exited (Some err)) s]> (heap w)
     /\ trace (listen w p rd) = trace w ++ [ELogEcho (s_id s) err])
  /\ (exists s', heap (listen w p rd) !! p = Some s'
                 /\ s_stage s' = s_stage s /\ s_msgs s' = s_msgs s
                 /\ s_closed s' = s_closed s /\ s_c s' = s_c s)
  /\ cs (listen w p rd) = cs w
  /\ pending (listen w p rd) = pending w
  /\ (forall rd' q sq,
        heap w !! q = Some sq ->
        subscribers (cs (listen w p rd')) = subscribers (cs w)
        /\ exists sq', heap (listen w p rd') !! q = Some sq'
                       /\ s_stage sq' = s_stage sq).
Proof.
  intros Hs Hl Hrd.
  assert (forall rd' q sq,
            heap w !! q = Some sq ->
            subscribers (cs (listen w p rd')) = subscribers (cs w)
            /\ exists sq', heap (listen w p rd') !! q = Some sq'
                           /\ s_stage sq' = s_stage sq) as Hany.
  { intros rd' q sq Hq. split; [apply listen_subscribers|].
    by apply listen_keeps_stage. }
  assert (echo w (s_id s) rd = (w, Some err)) as Hecho.
  { by destruct Hrd as [-> | [-> | ->]]. }
  assert (forall l, alter (set_listen l) p (heap w) = <[p := set_listen l s]> (heap w))
    as Halter.
  { intros l. apply map_eq. intros q. rewrite lookup_alter, lookup_insert.
    case_decide; [subst q; by rewrite Hs | done]. }
  repeat (split; [|try exact Hany]); clear Hany;
    unfold listen; rewrite Hs, Hl, Hecho; unfold StatusNormalClosure;
    case_decide as Hcode; simpl; rewrite ?Halter, ?lookup_insert_eq;
    try done; by eexists.
Qed.

(** ** The life of a subscriber *)

Lemma change_update (P : Prop) w q (f : subscriber -> subscriber) p s :
  (q = p -> change P s (f s)) ->
  heap w !! p = Some s ->
  exists s', heap (update q f w) !! p = Some s' /\ change P s s'.
Proof.
  intros Hf Hs. simpl. rewrite lookup_alter. case_decide as Hqp.
  - subst q. rewrite Hs. simpl. exists (f s). split; [done|]. by apply Hf.
  - exists s. split; [done | constructor].
Qed.

Lemma change_publish (P : Prop) w msg p s :
  heap w !! p = Some s ->
  exists s', heap (publish w msg) !! p = Some s' /\ change P s s'.
Proof.
  intros Hs. destruct (decide (p ∈ subscribers (cs w))) as [Hp|Hp].
  - rewrite (publish_heap_registered w msg p s) by done.
    eexists. split; [done|]. unfold chanTrySend. case_decide; simpl.
    + by constructor.
    + constructor.
  - rewrite publish_heap_other by done. exists s. split; [done | constructor].
Qed.

Lemma change_subscribe_return (P : Prop) w q err p s :
  (forall sq, heap w !! q = Some sq -> running (s_stage sq) = true) ->
  heap w !! p = Some s ->
  exists s', heap (subscribe_return w q (Some err)) !! p = Some s'
             /\ change P s s'.
Proof.
  intros Hrun Hs. destruct (heap w !! q) as [sq|] eqn:Hq.
  - destruct (subscribe_return_spec w q sq (Some err) Hq) as (-> & _).
    rewrite lookup_alter. case_decide as Hqp.
    + subst q. assert (sq = s) as -> by congruence.
      rewrite Hs. simpl. eexists. split; [done|].
      constructor. by apply Hrun.
    + exists s. split; [done | constructor].
  - unfold subscribe_return. rewrite Hq. exists s. split; [done | constructor].
Qed.

Lemma change_step w ev p s :
  consistent w -> heap w !! p = Some s ->
  exists s', heap (step w ev) !! p = Some s'
             /\ change (ev = RunCloseSlow p /\ p ∈ pending w) s s'.
Proof.
  intros Hw Hs. destruct ev as [addr|q r|q sel|q rd|q|r]; simpl.
  - exists s. split; [|constructor].
    rewrite lookup_insert_ne; [done|].
    assert (p < fresh w)%positive by (apply (heap_below_fresh w Hw); by eexists).
    lia.
  - unfold subscribe_accept.
    destruct (heap w !! q) as [sq|] eqn:Hq; [|exists s; split; [done|constructor]].
    destruct (s_stage sq) eqn:Hst; [|exists s; split; [done|constructor]..].
    assert (forall s0, heap w !! q = Some s0 -> running (s_stage s0) = true) as Hrun.
    { intros s0 Hs0. assert (s0 = sq) as -> by congruence. by rewrite Hst. }
    destruct r as [c2|err]; [|by apply change_subscribe_return].
    destruct (s_closed sq) eqn:Hcl; [by apply change_subscribe_return|].
    apply change_update; [|done].
    intros ->. assert (s = sq) as -> by congruence. by constructor.
  - unfold subscribe_select.
    destruct (heap w !! q) as [sq|] eqn:Hq; [|exists s; split; [done|constructor]].
    destruct (s_stage sq) eqn:Hst;
      [exists s; split; [done|constructor]| |exists s; split; [done|constructor]].
    destruct (s_c sq) as [c|]; [|exists s; split; [done|constructor]].
    assert (forall s0, heap w !! q = Some s0 -> running (s_stage s0) = true) as Hrun.
    { intros s0 Hs0. assert (s0 = sq) as -> by congruence. by rewrite Hst. }
    destruct sel as [written|]; [|by apply change_subscribe_return].
    destruct (s_msgs sq) as [|msg rest] eqn:Hmsgs; [exists s; split; [done|constructor]|].
    unfold writeTimeout.
    assert (exists s', alter (set_msgs rest) q (heap w) !! p = Some s'
                       /\ change (Selected q (RecvMsg written) = RunCloseSlow p
                                  /\ p ∈ pending w) s s') as (s1' & Hs1' & Hch1').
    { rewrite lookup_alter. case_decide as Hqp.
      - subst q. assert (s = sq) as -> by congruence. rewrite Hs. simpl.
        eexists. split; [done|]. by econstructor.
      - exists s. split; [done|constructor]. }
    destruct written as [e|]; [|by exists s1'].
    match goal with |- context [subscribe_return ?w0 q _] =>
      destruct (change_subscribe_return
                  (Selected q (RecvMsg (Some e)) = RunCloseSlow p /\ p ∈ pending w)
                  w0 q e p s1') as (s2 & Hs2 & Hch2)
    end.
    + simpl. intros s0. rewrite lookup_alter, decide_True by done. rewrite Hq. simpl.
      intros [= <-]. simpl. by rewrite Hst.
    + done.
    + exists s2. split; [done|]. by eapply change_then.
  - unfold listen.
    destruct (heap w !! q) as [sq|] eqn:Hq; [|exists s; split; [done|constructor]].
    destruct (s_listen sq) eqn:Hl;
      [exists s; split; [done|constructor]| |exists s; split; [done|constructor]].
    set (P := Received q rd = RunCloseSlow p /\ p ∈ pending w).
    assert (exists s1, heap (echo w (s_id sq) rd).1 !! p = Some s1 /\ change P s s1
                       /\ s_listen s1 = s_listen s)
      as (s1 & Hs1 & Hch1 & Hl1).
    { destruct rd; simpl; try (exists s; split_and!; [done|constructor|done]).
      destruct (decide (p ∈ subscribers (cs w))) as [Hp|Hp].
      - rewrite (publish_heap_registered _ msg p s) by done.
        eexists. split; [done|]. unfold chanTrySend. case_decide; simpl.
        + split; [by constructor | done].
        + split; [constructor | done].
      - rewrite publish_heap_other by done.
        exists s. split_and!; [done|constructor|done]. }
    destruct (echo w (s_id sq) rd) as [w1 err]. simpl in Hs1.
    assert (q = p -> s_listen s1 = Listening) as Hlp.
    { intros ->. assert (s = sq) as -> by congruence. by rewrite Hl1. }
    case_decide.
    + destruct (change_update P w1 q (set_listen (Exited None)) p s1)
        as (s2 & Hs2 & Hch2); [|done|].
      { intros Hqp. constructor. by apply Hlp. }
      exists s2. split; [done|]. by eapply change_then.
    + destruct err as [e|]; [|by exists s1].
      destruct (change_update P (emit (ELogEcho (s_id sq) e) w1) q
                  (set_listen (Exited (Some e))) p s1) as (s2 & Hs2 & Hch2);
        [|done|].
      { intros Hqp. constructor. by apply Hlp. }
      exists s2. split; [done|]. by eapply change_then.
  - case_decide as Hpend; [|exists s; split; [done|constructor]].
    unfold closeSlow. simpl.
    destruct (heap w !! q) as [sq|] eqn:Hq; [|exists s; split; [done|constructor]].
    assert (exists s', alter (set_closed true) q (heap w) !! p = Some s'
                       /\ change (RunCloseSlow q = RunCloseSlow p /\ p ∈ pending w)
                            s s') as Hgoal.
    { rewrite lookup_alter. case_decide as Hqp.
      - subst q. rewrite Hs. simpl. eexists. split; [done|]. by constructor.
      - exists s. split; [done|constructor]. }
    by destruct (s_c sq).
  - unfold publishHandler. case_decide; [exists s; split; [done|constructor]|].
    destruct (ReadAll _) as [msg [e|]]; [exists s; split; [done|constructor]|].
    simpl. by apply change_publish.
Qed.

Lemma publish_heap_none w msg p :
  heap w !! p = None -> heap (publish w msg) !! p = None.
Proof. intros Hp. unfold publish. by apply loop_heap_none. Qed.

Lemma subscribe_return_heap_none w q err p :
  heap w !! p = None -> heap (subscribe_return w q err) !! p = None.
Proof.
  intros Hp. destruct (heap w !! q) as [sq|] eqn:Hq.
  - destruct (subscribe_return_spec w q sq err Hq) as (-> & _).
    rewrite lookup_alter. case_decide; [subst q; congruence | done].
  - unfold subscribe_return. by rewrite Hq.
Qed.

(** A subscriber appears in the heap only through [subscribe], at the
    next free address and as [newSubscriber] builds it. *)
Lemma step_new w ev p :
  heap w !! p = None ->
  heap (step w ev) !! p = None
  \/ exists remoteAddr,
       ev = Subscribe remoteAddr /\ p = fresh w
       /\ heap (step w ev) !! p
          = Some (newSubscriber remoteAddr (subscriberMessageBuffer (cs w))).
Proof.
  intros Hp. destruct ev as [addr|q r|q sel|q rd|q|r]; simpl.
  - rewrite lookup_insert. case_decide as Heq.
    + right. exists addr. by subst p.
    + by left.
  - left. unfold subscribe_accept.
    destruct (heap w !! q) as [sq|] eqn:Hq; [|done].
    destruct (s_stage sq); [|done..].
    destruct r as [c2|err]; [|by apply subscribe_return_heap_none].
    destruct (s_closed sq); [by apply subscribe_return_heap_none|].
    simpl. rewrite lookup_alter. case_decide; [subst q; congruence | done].
  - left. unfold subscribe_select.
    destruct (heap w !! q) as [sq|] eqn:Hq; [|done].
    destruct (s_stage sq); [done| |done].
    destruct (s_c sq) as [c|]; [|done].
    destruct sel as [written|]; [|by apply subscribe_return_heap_none].
    destruct (s_msgs sq) as [|msg rest]; [done|].
    unfold writeTimeout.
    assert (alter (set_msgs rest) q (heap w) !! p = None) as Hp1.
    { rewrite lookup_alter. case_decide; [subst q; congruence | done]. }
    destruct written as [e|]; [|done].
    by apply subscribe_return_heap_none.
  - left. unfold listen.
    destruct (heap w !! q) as [sq|] eqn:Hq; [|done].
    destruct (s_listen sq); [done| |done].
    assert (heap (echo w (s_id sq) rd).1 !! p = None) as Hp1.
    { destruct rd; simpl; try done. by apply publish_heap_none. }
    destruct (echo w (s_id sq) rd) as [w1 err]. simpl in Hp1.
    assert (forall l w2, heap w2 = heap w1 ->
              heap (update q (set_listen l) w2) !! p = None) as Hupd.
    { intros l w2 Hw2. simpl. rewrite Hw2, lookup_alter.
      case_decide as Hqp; [|done]. subst q. by rewrite Hp1. }
    case_decide; [by apply Hupd|]. destruct err; [by apply Hupd | done].
  - left. case_decide; [|done]. unfold closeSlow. simpl.
    destruct (heap w !! q) as [sq|] eqn:Hq; [|done].
    assert (alter (set_closed true) q (heap w) !! p = None) as Hp1.
    { rewrite lookup_alter. case_decide; [subst q; congruence | done]. }
    by destruct (s_c sq).
  - left. unfold publishHandler. case_decide; [done|].
    destruct (ReadAll _) as [msg [e|]]; [done|].
    simpl. by apply publish_heap_none.
Qed.

(** What holds of a new subscriber and is kept by every change holds of
    every subscriber of every reachable world. *)
Lemma reachable_entry (Q : subscriber -> Prop) (g : G) w p s :
  (forall remoteAddr, Q (newSubscriber remoteAddr 16)) ->
  (forall (P : Prop) s1 s2, change P s1 s2 -> Q s1 -> Q s2) ->
  reachable g w -> heap w !! p = Some s -> Q s.
Proof.
  intros Hnew Hkeep Hreach. revert p s.
  induction Hreach as [|w ev Hreach IH]; intros p s Hs; [done|].
  pose proof (reachable_consistent g w Hreach) as Hw.
  destruct (heap w !! p) as [s0|] eqn:Hs0.
  - destruct (change_step w ev p s0 Hw Hs0) as (s' & Hs' & Hch).
    assert (s' = s) as -> by congruence. eapply Hkeep; [done|]. by eapply IH.
  - destruct (step_new w ev p Hs0) as [Hnone | (addr & _ & _ & Hsome)];
      [congruence|].
    rewrite (buffer_default w Hw) in Hsome.
    assert (s = newSubscriber addr 16) as -> by congruence. apply Hnew.
Qed.

(** X1: the queue of a subscriber never holds more messages than the
    capacity of its channel, sixteen. *)
Theorem queue_within_capacity (g : G) w p s :
  reachable g w -> heap w !! p = Some s ->
  length (s_msgs s) ≤ s_cap s /\ s_cap s = 16.
Proof.
  intros Hreach Hs.
  apply (reachable_entry
           (fun s => length (s_msgs s) ≤ s_cap s /\ s_cap s = 16) g w p s);
    [intros addr; simpl; split; [lia | done]| |done..].
  clear. intros P s1 s2 Hch. induction Hch as
    [s|s msg Hroom|s msg rest Hst Hq|s c Hst Hcl|s err Hrun|s err Hl|s HP
    |s1 s2 s3 _ IH1 _ IH2]; simpl; try done.
  - intros [_ Hcap]. rewrite length_app. simpl. split; [lia | done].
  - rewrite Hq. simpl. intros [Hlen Hcap]. split; [lia | done].
  - intros H. by apply IH2, IH1.
Qed.

(** X2: the shape of a session.  The connection is stored and the read
    loop started together, at the end of a handshake that succeeded: a
    session that is still accepting has neither, an active one has both,
    and one has a connection exactly if its read loop was started.  And
    [subscribe] never returns [nil]: a session that has returned has
    returned an error. *)
Theorem session_shape (g : G) w p s :
  reachable g w -> heap w !! p = Some s ->
  (s_c s = None <-> s_listen s = NotStarted)
  /\ (s_stage s = Accepting -> s_c s = None)
  /\ (s_stage s = Active -> is_Some (s_c s))
  /\ s_stage s ≠ Returned None.
Proof.
  intros Hreach Hs.
  apply (reachable_entry
           (fun s => (s_c s = None <-> s_listen s = NotStarted)
                     /\ (s_stage s = Accepting -> s_c s = None)
                     /\ (s_stage s = Active -> is_Some (s_c s))
                     /\ s_stage s ≠ Returned None) g w p s);
    [done| |done..].
  clear. intros P s1 s2 Hch. induction Hch as
    [s|s msg Hroom|s msg rest Hst Hq|s c Hst Hcl|s err Hrun|s err Hl|s HP
    |s1 s2 s3 _ IH1 _ IH2]; simpl; try done.
  - intros (Hc & _). by split_and!.
  - intros (Hc & Ha & Hb & Hd). split_and!; [|done..].
    rewrite Hc, Hl. split; done.
  - intros H. by apply IH2, IH1.
Qed.

Lemma change_weaken (P : Prop) s1 s2 : change P s1 s2 -> change True s1 s2.
Proof.
  induction 1; by econstructor.
Qed.

Lemma change_run w evs p s :
  consistent w -> heap w !! p = Some s ->
  exists s', heap (run w evs) !! p = Some s' /\ change True s s'.
Proof.
  revert w s. induction evs as [|ev evs IH]; intros w s Hw Hs; simpl.
  - exists s. split; [done | constructor].
  - destruct (change_step w ev p s Hw Hs) as (s1 & Hs1 & Hch1).
    destruct (IH (step w ev) s1) as (s2 & Hs2 & Hch2);
      [by apply consistent_step|done|].
    exists s2. split; [done|].
    eapply change_then; [by eapply change_weaken | done].
Qed.

(** X3: a subscriber, once allocated, stays where it is, and its session
    only moves forward: whatever happens next, its address still holds
    it, its stage has not gone back (accepting, then active, then
    returned), the connection it stored is still the one stored, and its
    id and the capacity of its channel are as they were. *)
Theorem session_moves_forward (g : G) w p s evs :
  reachable g w -> heap w !! p = Some s ->
  exists s',
    heap (run w evs) !! p = Some s'
    /\ rank (s_stage s) ≤ rank (s_stage s')
    /\ (forall c, s_c s = Some c -> s_c s' = Some c)
    /\ s_id s' = s_id s /\ s_cap s' = s_cap s.
Proof.
  intros Hw%reachable_consistent Hs.
  destruct (change_run w evs p s Hw Hs) as (s' & Hs' & Hch).
  exists s'. split; [done|].
  pose proof (accepting_nil w Hw p s Hs) as Hacc. clear Hs Hs' Hw.
  revert Hch Hacc. generalize True. intros P Hch.
  assert ((s_stage s = Accepting -> s_c s = None) ->
          (s_stage s' = Accepting -> s_c s' = None)
          /\ rank (s_stage s) ≤ rank (s_stage s')
          /\ (forall c, s_c s = Some c -> s_c s' = Some c)
          /\ s_id s' = s_id s /\ s_cap s' = s_cap s) as Hmain.
  { induction Hch as
      [s|s msg Hroom|s msg rest Hst Hq|s c Hst Hcl|s err Hrun|s err Hl|s HP
      |s1 s2 s3 _ IH1 _ IH2]; simpl; try done.
    - intros Hacc. rewrite Hst. simpl. split_and!; [done|lia| |done..].
      intros c' Hc'. rewrite (Hacc Hst) in Hc'. done.
    - intros Hacc. split_and!; [done| |done..]. destruct (s_stage s); simpl; lia.
    - intros Hacc. destruct (IH1 Hacc) as (Hacc2 & Hr1 & Hc1 & Hid1 & Hcap1).
      destruct (IH2 Hacc2) as (Hacc3 & Hr2 & Hc2 & Hid2 & Hcap2).
      split_and!; [done|lia| |congruence|congruence].
      intros c Hc. by apply Hc2, Hc1. }
  intros Hacc. by destruct (Hmain Hacc) as (_ & ? & ? & ? & ?).
Qed.

(** ** The history of the server *)

Lemma replay_app (g : G) (l k : list effect) :
  replay g (l ++ k) = replay (replay g l) k.
Proof. apply foldl_app. Qed.

Lemma replay_fanout (g : G) msg w (l : list ptr) :
  replay g (map (fanout msg w) l) = g.
Proof.
  induction l as [|a l IH]; [done|]. simpl.
  unfold fanout at 1. by destruct (queueFull w a).
Qed.

Lemma allowed_fanout msg w (l : list ptr) : Forall allowed (map (fanout msg w) l).
Proof.
  apply Forall_forall. intros e (q & -> & _)%list_elem_of_fmap.
  unfold fanout. by destruct (queueFull w q).
Qed.

Lemma extends_refl w : extends w w.
Proof.
  exists []. rewrite app_nil_r. split_and!; [done|constructor|done|].
  intros p Hp. by left.
Qed.

Lemma extends_trans w1 w2 w3 : extends w1 w2 -> extends w2 w3 -> extends w1 w3.
Proof.
  intros (l & Htr1 & Hal1 & Hg1 & Hp1) (k & Htr2 & Hal2 & Hg2 & Hp2).
  exists (l ++ k). split_and!.
  - by rewrite Htr2, Htr1, app_assoc.
  - by apply Forall_app.
  - by rewrite replay_app, <- Hg1, <- Hg2.
  - intros p Hp. destruct (Hp2 p Hp) as [Hq|Hq].
    + destruct (Hp1 p Hq) as [?|?]; [by left|]. right. apply elem_of_app. by left.
    + right. apply elem_of_app. by right.
Qed.

(** A world that differs in the heap, the registry or the next address
    only comes after. *)
Lemma extends_quiet w w' :
  trace w' = trace w -> game (cs w') = game (cs w) ->
  (forall p, p ∈ pending w' -> p ∈ pending w) ->
  extends w w'.
Proof.
  intros Htr Hg Hp. exists []. rewrite app_nil_r.
  split_and!; [done|constructor|done|]. intros p Hin. left. by apply Hp.
Qed.

Lemma extends_emit w e :
  allowed e -> (forall usrid msg, e ≠ EHandleMsg usrid msg) ->
  (forall p, e ≠ EGoCloseSlow p) ->
  extends w (emit e w).
Proof.
  intros Hal Hne _. exists [e]. split_and!; [done|by constructor| |by left].
  simpl. destruct e; try done. by destruct (Hne usrid msg).
Qed.

Lemma extends_handle w usrid msg : extends w (handle w usrid msg).
Proof.
  exists [EHandleMsg usrid msg]. split_and!; [done|by constructor|done|by left].
Qed.

Lemma extends_publish w msg : consistent w -> extends w (publish w msg).
Proof.
  intros Hw. exists (map (fanout msg w) (elements (subscribers (cs w)))).
  split_and!.
  - apply publish_trace. intros p Hp.
    destruct (proj1 (registry_running w Hw p) Hp) as (s & Hs & _). by eexists.
  - apply allowed_fanout.
  - by rewrite publish_cs, replay_fanout.
  - intros p. rewrite publish_pending, elem_of_app, list_elem_of_filter.
    intros [Hp|[Hfull Hp]]; [by left|]. right.
    apply list_elem_of_fmap. exists p. split; [|done].
    unfold fanout. by destruct (queueFull w p).
Qed.

Lemma extends_subscribeHandler_end w err :
  extends w (subscribeHandler_end w err).
Proof.
  unfold subscribeHandler_end.
  case_decide as Hcan; [apply extends_refl|].
  case_decide as Hcode; [apply extends_refl|].
  destruct err as [e|]; [|apply extends_refl].
  apply extends_emit; [|done..]. simpl. split_and!.
  - intros ->. done.
  - intros Heq. apply Hcode. by left.
  - intros Heq. apply Hcode. by right.
Qed.

Lemma extends_subscribe_return w p err : extends w (subscribe_return w p err).
Proof.
  unfold subscribe_return. destruct (heap w !! p) as [s|]; [|apply extends_refl].
  eapply extends_trans; [|apply extends_subscribeHandler_end].
  destruct (s_stage s); [by apply extends_quiet| |by apply extends_quiet].
  destruct (s_c s) as [c|]; [|by apply extends_quiet].
  eapply extends_trans; [by apply (extends_emit w (ECloseNow c))|].
  by apply extends_quiet.
Qed.

Lemma elem_of_take_out p q (l : list ptr) : p ∈ take_out q l -> p ∈ l.
Proof.
  induction l as [|a l IH]; simpl; [done|].
  case_decide; [by right|].
  intros [->|Hp]%elem_of_cons; [by left | right; by apply IH].
Qed.

Lemma extends_step w ev : consistent w -> extends w (step w ev).
Proof.
  intros Hw. destruct ev as [addr|q r|q sel|q rd|q|r]; simpl.
  - by apply extends_quiet.
  - unfold subscribe_accept. destruct (heap w !! q) as [sq|]; [|apply extends_refl].
    destruct (s_stage sq); [|apply extends_refl..].
    destruct r as [c2|err]; [|apply extends_subscribe_return].
    destruct (s_closed sq); [apply extends_subscribe_return|].
    by apply extends_quiet.
  - unfold subscribe_select. destruct (heap w !! q) as [sq|]; [|apply extends_refl].
    destruct (s_stage sq); [apply extends_refl| |apply extends_refl].
    destruct (s_c sq) as [c|]; [|apply extends_refl].
    destruct sel as [written|]; [|apply extends_subscribe_return].
    destruct (s_msgs sq) as [|msg rest]; [apply extends_refl|].
    unfold writeTimeout.
    assert (extends w (emit (EWrite c (WithTimeout sessionCtx (5 * Second)) msg)
                         (update q (set_msgs rest) w))) as Hw1.
    { eapply extends_trans; [|by apply extends_emit].
      by apply extends_quiet. }
    destruct written as [e|]; [|done].
    eapply extends_trans; [done | apply extends_subscribe_return].
  - unfold listen. destruct (heap w !! q) as [sq|]; [|apply extends_refl].
    destruct (s_listen sq); [apply extends_refl| |apply extends_refl].
    assert (extends w (echo w (s_id sq) rd).1) as Hw1.
    { destruct rd; simpl; try apply extends_refl.
      eapply extends_trans; [apply extends_handle|].
      by apply extends_publish, consistent_handle. }
    destruct (echo w (s_id sq) rd) as [w1 err]. simpl in Hw1.
    case_decide as Hcode.
    + eapply extends_trans; [done|]. by apply extends_quiet.
    + destruct err as [e|]; [|done].
      eapply extends_trans; [done|].
      eapply extends_trans; [by apply (extends_emit w1 (ELogEcho (s_id sq) e))|].
      by apply extends_quiet.
  - case_decide; [|apply extends_refl].
    assert (extends w (set_pending (take_out q (pending w)) w)) as Hw0.
    { apply extends_quiet; [done..|]. intros p. apply elem_of_take_out. }
    unfold closeSlow. simpl. destruct (heap w !! q) as [sq|]; [|done].
    assert (extends w (update q (set_closed true)
                         (set_pending (take_out q (pending w)) w))) as Hw1.
    { apply extends_quiet; [done..|]. intros p. apply elem_of_take_out. }
    destruct (s_c sq) as [c|]; [|done].
    eapply extends_trans; [done|]. by apply extends_emit.
  - unfold publishHandler. case_decide; [apply extends_refl|].
    destruct (ReadAll _) as [msg [e|]]; [apply extends_refl|].
    simpl. eapply extends_trans; [apply extends_handle|].
    by apply extends_publish, consistent_handle.
Qed.

Lemma reachable_extends (g : G) w :
  reachable g w -> extends (newGameServerWith g) w.
Proof.
  induction 1 as [|w ev Hreach IH]; [apply extends_refl|].
  eapply extends_trans; [done|].
  by apply extends_step, (reachable_consistent g).
Qed.

(** X4: what the server never does on the outside.  In every reachable
    world, each close of a connection in the trace carries the code 1008
    and the slow-consumer reason, each write runs under a context of five
    seconds within the sixty minutes of the session, [subscribeHandler]
    has logged no [Canceled] and no closure with code 1000 or 1001, and
    the read loop has logged no closure with code 1000. *)
Theorem trace_is_allowed (g : G) w e :
  reachable g w -> e ∈ trace w ->
  (forall c code reason,
     e = EClose c code reason ->
     code = 1008%Z /\ reason = "connection too slow to keep up with messages")
  /\ (forall c ctx msg,
       e = EWrite c ctx msg ->
       ctx = WithTimeout (WithTimeout Background (60 * Minute)) (5 * Second))
  /\ (forall err,
       e = ELogSubscribe err ->
       err ≠ Canceled /\ CloseStatus (Some err) ≠ 1000%Z
       /\ CloseStatus (Some err) ≠ 1001%Z)
  /\ (forall addr err, e = ELogEcho addr err -> CloseStatus (Some err) ≠ 1000%Z).
Proof.
  intros Hreach He.
  destruct (reachable_extends g w Hreach) as (l & Htr & Hal & _).
  simpl in Htr. subst l.
  pose proof (proj1 (Forall_forall _ _) Hal e He) as Hok.
  split_and!; intros; subst e; exact Hok.
Qed.

(** X5: the game has been handed exactly the messages recorded in the
    trace, in that order: its state is the state it started in after the
    calls of [HandleMsg] of the trace, and nothing else touches it. *)
Theorem game_is_replayed (g : G) w :
  reachable g w -> game (cs w) = replay g (trace w).
Proof.
  intros Hreach.
  destruct (reachable_extends g w Hreach) as (l & Htr & _ & Hg & _).
  simpl in Htr, Hg. by subst l.
Qed.

Lemma change_closed_inv (P : Prop) s s' :
  change P s s' -> s_closed s' = true -> s_closed s = true \/ P.
Proof.
  induction 1 as
    [s|s msg Hroom|s msg rest Hst Hq|s c Hst Hcl|s err Hrun|s err Hl|s HP
    |s1 s2 s3 _ IH1 _ IH2]; simpl; try by left.
  - by right.
  - intros Hcl. destruct (IH2 Hcl) as [Hcl2|HP]; [by apply IH1 | by right].
Qed.

(** X6: [closeSlow] runs for evicted subscribers only.  In every reachable
    world, a [closeSlow] that is spawned and has not run, and a subscriber
    whose flag [closed] is set, belong to a subscriber whose eviction is in
    the trace: some [publish] found its queue full. *)
Theorem closed_only_by_eviction (g : G) w p :
  reachable g w ->
  (p ∈ pending w -> EGoCloseSlow p ∈ trace w)
  /\ (forall s, heap w !! p = Some s -> s_closed s = true ->
               EGoCloseSlow p ∈ trace w).
Proof.
  intros Hreach.
  assert (forall w0, reachable g w0 -> p ∈ pending w0 -> EGoCloseSlow p ∈ trace w0)
    as Hpend.
  { intros w0 Hreach0 Hp.
    destruct (reachable_extends g w0 Hreach0) as (l & Htr & _ & _ & Hpe).
    simpl in Htr. subst l. destruct (Hpe p Hp) as [Hin|Hin]; [|done].
    simpl in Hin. by apply elem_of_nil in Hin. }
  split; [by apply Hpend|].
  induction Hreach as [|w ev Hreach IH]; [done|].
  intros s' Hs' Hcl.
  pose proof (reachable_consistent g w Hreach) as Hw.
  destruct (extends_step w ev Hw) as (l & Htr & _).
  rewrite Htr. apply elem_of_app. left.
  destruct (heap w !! p) as [s0|] eqn:Hs0.
  - destruct (change_step w ev p s0 Hw Hs0) as (s1 & Hs1 & Hch).
    assert (s1 = s') as -> by congruence.
    destruct (change_closed_inv _ _ _ Hch Hcl) as [Hcl0|[_ Hp]].
    + by apply (IH s0).
    + by apply Hpend.
  - destruct (step_new w ev p Hs0) as [Hnone | (addr & _ & _ & Hsome)];
      [congruence|].
    assert (s' = newSubscriber addr (subscriberMessageBuffer (cs w))) as ->
      by congruence.
    done.
Qed.

(** ** The write loop drains the queue *)

Lemma rounds_spec w p s c n :
  heap w !! p = Some s -> s_stage s = Active -> s_c s = Some c ->
  n ≤ length (s_msgs s) ->
  heap (run w (rounds n p)) = <[p := set_msgs (drop n (s_msgs s)) s]> (heap w)
  /\ trace (run w (rounds n p))
     = trace w ++ map (EWrite c (WithTimeout sessionCtx (5 * Second)))
                    (take n (s_msgs s))
  /\ cs (run w (rounds n p)) = cs w
  /\ pending (run w (rounds n p)) = pending w.
Proof.
  revert w s. induction n as [|n IH]; intros w s Hs Hst Hc Hn.
  - simpl. rewrite app_nil_r, drop_0. split_and!; [|done..].
    symmetry. apply insert_id. rewrite Hs. by destruct s.
  - destruct (s_msgs s) as [|msg rest] eqn:Hq; [simpl in Hn; lia|].
    simpl in Hn. unfold rounds. simpl.
    assert (subscribe_select w p (RecvMsg None)
            = emit (EWrite c (WithTimeout sessionCtx (5 * Second)) msg)
                (update p (set_msgs rest) w)) as ->.
    { unfold subscribe_select. by rewrite Hs, Hst, Hc, Hq. }
    set (w1 := emit _ (update p (set_msgs rest) w)).
    assert (heap w1 !! p = Some (set_msgs rest s)) as Hs1.
    { subst w1. simpl. by rewrite lookup_alter, decide_True, Hs. }
    destruct (IH w1 (set_msgs rest s) Hs1 Hst Hc) as (Hheap & Htr & Hcs & Hpe);
      [simpl; lia|].
    fold (rounds n p). rewrite Hheap, Htr, Hcs, Hpe. subst w1. simpl.
    split_and!; [|by rewrite <- app_assoc|done..].
    apply map_eq. intros q. rewrite !lookup_insert. case_decide; [done|].
    rewrite lookup_alter. by rewrite decide_False.
Qed.

(** X8: the write loop sends the queue in order.  In an active session,
    [n] rounds of the write loop whose writes succeed send the [n] oldest
    messages of the queue, oldest first, each exactly once, and leave the
    rest of the queue, the registry and every other subscriber as they
    are. *)
Theorem write_loop_is_fifo w p s c n :
  heap w !! p = Some s -> s_stage s = Active -> s_c s = Some c ->
  n ≤ length (s_msgs s) ->
  heap (run w (rounds n p)) = <[p := set_msgs (drop n (s_msgs s)) s]> (heap w)
  /\ trace (run w (rounds n p))
     = trace w ++ map (EWrite c (WithTimeout (WithTimeout Background (60 * Minute))
                                   (5 * Second)))
                    (take n (s_msgs s))
  /\ cs (run w (rounds n p)) = cs w
  /\ pending (run w (rounds n p)) = pending w.
Proof. apply rounds_spec. Qed.

Lemma publish_to_room w msg p s :
  consistent w -> heap w !! p = Some s -> running (s_stage s) = true ->
  length (s_msgs s) < 16 ->
  heap (publish w msg) !! p = Some (set_msgs (s_msgs s ++ [msg]) s).
Proof.
  intros Hw Hs Hrun Hroom.
  rewrite (publish_heap_registered w msg p s);
    [|by apply (registry_running w Hw); eauto|done].
  rewrite chanTrySend_room; [done|]. rewrite (cap_default w Hw p s Hs). lia.
Qed.

(** X9: the round trip of the one-shot endpoint.  When a POST with a body
    of at most 8192 bytes is accepted while an active subscriber has room
    in its queue, the write loop of that subscriber, once it has sent what
    was queued before, sends exactly the bytes of the body. *)
Theorem post_round_trip (g : G) w r p s c :
  reachable g w ->
  Method r = "POST" ->
  (Z.of_nat (length (r_data (Body r))) <= 8192)%Z -> r_err (Body r) = None ->
  heap w !! p = Some s -> s_stage s = Active -> s_c s = Some c ->
  length (s_msgs s) < 16 ->
  (publishHandler w r).2 = 202%Z
  /\ trace (run (publishHandler w r).1 (rounds (S (length (s_msgs s))) p))
     = trace (publishHandler w r).1
       ++ map (EWrite c (WithTimeout (WithTimeout Background (60 * Minute))
                           (5 * Second)))
            (s_msgs s ++ [r_data (Body r)])
  /\ heap (run (publishHandler w r).1 (rounds (S (length (s_msgs s))) p)) !! p
     = Some (set_msgs [] s).
Proof.
  intros Hw%reachable_consistent Hm Hlen Herr Hs Hst Hc Hroom.
  rewrite publishHandler_accepts by done. cbn [fst snd]. split; [done|].
  set (msg := r_data (Body r)).
  set (w1 := publish (handle w (RemoteAddr r) msg) msg).
  assert (heap w1 !! p = Some (set_msgs (s_msgs s ++ [msg]) s)) as Hs1.
  { subst w1. apply publish_to_room; [by apply consistent_handle|done| |done].
    by rewrite Hst. }
  destruct (rounds_spec w1 p _ c (S (length (s_msgs s))) Hs1 Hst Hc)
    as (Hheap & Htr & _).
  { simpl. rewrite length_app. simpl. lia. }
  simpl s_msgs in Hheap, Htr.
  rewrite Hheap, Htr, lookup_insert_eq.
  rewrite take_ge, drop_ge by (rewrite length_app; simpl; lia).
  done.
Qed.

(** ** The handshake *)

(** X10: the outcomes of the handshake of a subscriber that was not
    evicted meanwhile.  If [websocket.Accept] fails, [subscribe] returns
    its error: the subscriber registered beforehand is taken out of the
    registry, and no connection is closed, there being none.  If it
    succeeds, the connection is stored, the read loop started and the
    session active, and the registry, the queue and the trace are as they
    were. *)
Theorem handshake_outcomes (g : G) w p s :
  reachable g w -> heap w !! p = Some s ->
  s_stage s = Accepting -> s_closed s = false ->
  (forall err,
     heap (subscribe_accept w p (inr err))
     = <[p := set_stage (Returned (Some err)) s]> (heap w)
     /\ subscribers (cs (subscribe_accept w p (inr err)))
        = subscribers (cs w) ∖ {[p]}
     /\ p ∈ subscribers (cs w)
     /\ trace (subscribe_accept w p (inr err))
        = trace (subscribeHandler_end w (Some err))
     /\ forall c, ECloseNow c ∉ drop (length (trace w))
                               (trace (subscribe_accept w p (inr err))))
  /\ (forall c2,
       heap (subscribe_accept w p (inl c2))
       = <[p := set_listen Listening (set_stage Active (set_c (Some c2) s))]>
           (heap w)
       /\ cs (subscribe_accept w p (inl c2)) = cs w
       /\ p ∈ subscribers (cs w)
       /\ pending (subscribe_accept w p (inl c2)) = pending w
       /\ trace (subscribe_accept w p (inl c2)) = trace w).
Proof.
  intros Hw%reachable_consistent Hs Hst Hcl.
  assert (p ∈ subscribers (cs w)) as Hreg.
  { apply (registry_running w Hw). exists s. by rewrite Hst. }
  assert (forall f, alter f p (heap w) = <[p := f s]> (heap w)) as Halter.
  { intros f. apply map_eq. intros q. rewrite lookup_alter, lookup_insert.
    case_decide; [subst q; by rewrite Hs | done]. }
  split.
  - intros err.
    assert (subscribe_accept w p (inr err) = subscribe_return w p (Some err)) as ->.
    { unfold subscribe_accept. by rewrite Hs, Hst. }
    destruct (subscribe_return_spec w p s (Some err) Hs) as (Hheap & Hsub & _).
    rewrite Hheap, Hsub, Halter. split_and!; [done..| |].
    + unfold subscribe_return. rewrite Hs, Hst. simpl.
      unfold subscribeHandler_end. repeat case_decide; done.
    + intros c. unfold subscribe_return. rewrite Hs, Hst. simpl.
      unfold subscribeHandler_end.
      repeat case_decide; simpl; rewrite ?drop_app_length, ?drop_all;
        try apply not_elem_of_nil.
      intros [=]%list_elem_of_singleton.
  - intros c2. unfold subscribe_accept. rewrite Hs, Hst, Hcl. simpl.
    by rewrite Halter.
Qed.

(** X11: what was published during the handshake is delivered after it.
    A message published while a subscriber is still accepting, with room
    in its queue, is queued for it; and once the handshake has succeeded
    the write loop sends the queue, this message last. *)
Theorem published_during_handshake (g : G) w p s msg c :
  reachable g w -> heap w !! p = Some s ->
  s_stage s = Accepting -> s_closed s = false -> length (s_msgs s) < 16 ->
  heap (publish w msg) !! p = Some (set_msgs (s_msgs s ++ [msg]) s)
  /\ trace (run (subscribe_accept (publish w msg) p (inl c))
              (rounds (S (length (s_msgs s))) p))
     = trace (publish w msg)
       ++ map (EWrite c (WithTimeout (WithTimeout Background (60 * Minute))
                           (5 * Second)))
            (s_msgs s ++ [msg]).
Proof.
  intros Hw%reachable_consistent Hs Hst Hcl Hroom.
  assert (heap (publish w msg) !! p = Some (set_msgs (s_msgs s ++ [msg]) s)) as Hs1.
  { apply publish_to_room; [done..| |done]. by rewrite Hst. }
  split; [done|].
  set (w1 := publish w msg) in *.
  set (s1 := set_msgs (s_msgs s ++ [msg]) s) in *.
  assert (subscribe_accept w1 p (inl c)
          = update p (fun s => set_listen Listening
                                 (set_stage Active (set_c (Some c) s))) w1) as ->.
  { unfold subscribe_accept. rewrite Hs1. subst s1. simpl. by rewrite Hst, Hcl. }
  set (w2 := update p _ w1).
  assert (heap w2 !! p
          = Some (set_listen Listening (set_stage Active (set_c (Some c) s1)))) as Hs2.
  { subst w2. simpl. by rewrite lookup_alter, decide_True, Hs1. }
  destruct (rounds_spec w2 p _ c (S (length (s_msgs s))) Hs2) as (_ & Htr & _);
    [done|done| |].
  { subst s1. simpl. rewrite length_app. simpl. lia. }
  rewrite Htr. subst w2 s1. simpl.
  by rewrite firstn_all2 by (rewrite length_app; simpl; lia).
Qed.

(** ** Frames from a client *)

(** X12: a frame a client sends is handed to the game under the address
    of that client and then published to every registered subscriber, the
    sender included: while its session is active and its queue has room,
    the sender finds its own message at the end of its queue.  The read
    loop goes on listening. *)
Theorem frame_is_echoed (g : G) w p s msg :
  reachable g w -> heap w !! p = Some s -> s_listen s = Listening ->
  listen w p (Frame msg) = publish (handle w (s_id s) msg) msg
  /\ game (cs (listen w p (Frame msg))) = HandleMsg (game (cs w)) (s_id s) msg
  /\ trace (listen w p (Frame msg))
     = trace w ++ EHandleMsg (s_id s) msg
                 :: map (fanout msg w) (elements (subscribers (cs w)))
  /\ (exists s', heap (listen w p (Frame msg)) !! p = Some s'
                 /\ s_listen s' = Listening)
  /\ (s_stage s = Active -> length (s_msgs s) < 16 ->
      heap (listen w p (Frame msg)) !! p
      = Some (set_msgs (s_msgs s ++ [msg]) s)).
Proof.
  intros Hw%reachable_consistent Hs Hl.
  assert (listen w p (Frame msg) = publish (handle w (s_id s) msg) msg) as Heq.
  { unfold listen. by rewrite Hs, Hl. }
  rewrite Heq. split_and!.
  - done.
  - by rewrite publish_cs.
  - rewrite publish_trace; simpl.
    + by rewrite <- app_assoc.
    + intros q Hq. destruct (proj1 (registry_running w Hw q) Hq) as (sq & Hsq & _).
      by eexists.
  - pose proof (publish_heap_queue (handle w (s_id s) msg) msg p) as Hk.
    simpl in Hk. rewrite Hs in Hk. destruct Hk as [k Hk]. by eexists.
  - intros Hst Hroom. apply publish_to_room; [by apply consistent_handle|done| |done].
    by rewrite Hst.
Qed.

(** ** Registration *)

(** X13: every call of [subscribe] registers a subscriber of its own.  The
    address it allocates is neither in the heap nor in the registry
    before, the registry grows by exactly this one subscriber, the
    subscribers already there are untouched, and two requests from the
    same remote address leave two subscribers registered. *)
Theorem subscribe_registers_fresh (g : G) w remoteAddr :
  reachable g w ->
  heap w !! fresh w = None
  /\ (fresh w ∉ subscribers (cs w))
  /\ subscribers (cs (subscribe_begin w remoteAddr))
     = {[fresh w]} ∪ subscribers (cs w)
  /\ size (subscribers (cs (subscribe_begin w remoteAddr)))
     = S (size (subscribers (cs w)))
  /\ heap (subscribe_begin w remoteAddr) !! fresh w
     = Some (newSubscriber remoteAddr 16)
  /\ (forall q, q ≠ fresh w ->
       heap (subscribe_begin w remoteAddr) !! q = heap w !! q)
  /\ trace (subscribe_begin w remoteAddr) = trace w
  /\ size (subscribers (cs (subscribe_begin (subscribe_begin w remoteAddr)
                              remoteAddr)))
     = S (S (size (subscribers (cs w)))).
Proof.
  intros Hreach.
  assert (forall (g0 : G) w0, reachable g0 w0 ->
            heap w0 !! fresh w0 = None /\ fresh w0 ∉ subscribers (cs w0)) as Hfresh.
  { intros g0 w0 Hw0%reachable_consistent.
    assert (heap w0 !! fresh w0 = None) as Hnone.
    { destruct (heap w0 !! fresh w0) eqn:Hs; [|done].
      assert (fresh w0 < fresh w0)%positive
        by (apply (heap_below_fresh w0 Hw0); by eexists).
      lia. }
    split; [done|]. intros (s & Hs & _)%(registry_running w0 Hw0). congruence. }
  assert (forall (g0 : G) w0 addr, reachable g0 w0 ->
            size (subscribers (cs (subscribe_begin w0 addr)))
            = S (size (subscribers (cs w0)))) as Hsize.
  { intros g0 w0 addr Hw0. destruct (Hfresh g0 w0 Hw0) as [_ Hnot]. simpl.
    rewrite size_union by (apply disjoint_singleton_l; done).
    by rewrite size_singleton. }
  destruct (Hfresh g w Hreach) as [Hnone Hnot].
  pose proof (reachable_consistent g w Hreach) as Hw.
  split_and!; try done.
  - by apply (Hsize g).
  - simpl. rewrite lookup_insert_eq. unfold newSubscriber.
    by rewrite (buffer_default w Hw).
  - intros q Hq. simpl. by rewrite lookup_insert_ne.
  - rewrite (Hsize g (subscribe_begin w remoteAddr) remoteAddr).
    + by rewrite (Hsize g).
    + apply (reachable_step g w (Subscribe remoteAddr) Hreach).
Qed.

(** X14: a session that has returned is out of the game.  Publishing
    leaves its subscriber as it is (nothing is queued for it and no
    [closeSlow] is spawned for it), and neither an answer of the handshake
    nor a case of the write loop can move it again. *)
Theorem returned_is_inert (g : G) w p s err :
  reachable g w -> heap w !! p = Some s -> s_stage s = Returned err ->
  (p ∉ subscribers (cs w))
  /\ (forall msg,
       heap (publish w msg) !! p = Some s
       /\ (forall e, e ∈ drop (length (trace w)) (trace (publish w msg)) ->
                     e ≠ EEnqueue p msg /\ e ≠ EGoCloseSlow p))
  /\ (forall r, heap (publishHandler w r).1 !! p = Some s)
  /\ (forall r, subscribe_accept w p r = w)
  /\ (forall sel, subscribe_select w p sel = w).
Proof.
  intros Hw%reachable_consistent Hs Hst.
  assert (p ∉ subscribers (cs w)) as Hnot.
  { intros (s0 & Hs0 & Hrun)%(registry_running w Hw).
    assert (s0 = s) as -> by congruence. by rewrite Hst in Hrun. }
  split_and!.
  - done.
  - intros msg. split; [by rewrite publish_heap_other|].
    intros e. rewrite publish_trace, drop_app_length.
    + intros (q & -> & Hq%elem_of_elements)%list_elem_of_fmap.
      split; intros Heq; symmetry in Heq.
      * assert (q = p) as -> by (eapply fanout_inv; eauto). done.
      * assert (q = p) as -> by (eapply fanout_inv; eauto). done.
    + intros q Hq. destruct (proj1 (registry_running w Hw q) Hq) as (sq & Hsq & _).
      by eexists.
  - intros r. unfold publishHandler. case_decide; [done|].
    destruct (ReadAll _) as [msg [e|]]; [done|]. simpl.
    by rewrite publish_heap_other.
  - intros r. unfold subscribe_accept. by rewrite Hs, Hst.
  - intros sel. unfold subscribe_select. by rewrite Hs, Hst.
Qed.

(** X15: [addSubscriber] and [deleteSubscriber] on the registry.  After
    [addSubscriber] the subscriber is registered, adding it again changes
    nothing, the other subscribers are registered as before, and deleting
    a subscriber that was added to a registry without it gives the world
    before the two calls. *)
Theorem addSubscriber_deleteSubscriber w p :
  p ∈ subscribers (cs (addSubscriber w p))
  /\ addSubscriber (addSubscriber w p) p = addSubscriber w p
  /\ (forall q, q ≠ p ->
       (q ∈ subscribers (cs (addSubscriber w p)) <-> q ∈ subscribers (cs w)))
  /\ (p ∉ subscribers (cs w) -> deleteSubscriber (addSubscriber w p) p = w)
  /\ (p ∈ subscribers (cs w) -> addSubscriber w p = w)
  /\ (p ∈ subscribers (cs w) ->
      subscribers (cs (addSubscriber (deleteSubscriber w p) p))
      = subscribers (cs w)).
Proof.
  destruct w as [[buf lim reg gm] hp fr pe tr].
  unfold deleteSubscriber, addSubscriber, set_subscribers; simpl. split_and!.
  - apply elem_of_union. left. by apply elem_of_singleton.
  - do 2 f_equal. apply set_eq. intros q. rewrite !elem_of_union. tauto.
  - intros q Hq. rewrite elem_of_union, elem_of_singleton. tauto.
  - intros Hp. do 2 f_equal. apply set_eq. intros q.
    rewrite elem_of_difference, elem_of_union, elem_of_singleton.
    split; [tauto|]. intros Hq. split; [by right|]. by intros ->.
  - intros Hp. do 2 f_equal. apply set_eq. intros q.
    rewrite elem_of_union, elem_of_singleton. split; [|tauto].
    intros [->|Hq]; done.
  - intros Hp. apply set_eq. intros q.
    rewrite elem_of_union, elem_of_difference, elem_of_singleton.
    split; [intros [->|[Hq _]]; done|].
    intros Hq. destruct (decide (q = p)); [by left | by right].
Qed.

(** ** A client that does not read *)

Lemma count_NoDup (l : list ptr) p :
  NoDup l ->
  length (filter (fun q => q = p) l) = if decide (p ∈ l) then 1 else 0.
Proof.
  induction 1 as [|a l Ha Hnd IH]; [done|].
  rewrite filter_cons. destruct (decide (a = p)) as [->|Hap].
  - simpl. rewrite IH, decide_False by done.
    rewrite decide_True; [done | by left].
  - rewrite IH. destruct (decide (p ∈ l)) as [Hp|Hp].
    + rewrite decide_True; [done | by right].
    + rewrite decide_False; [done|].
      intros [->|?]%elem_of_cons; done.
Qed.

Lemma publish_spawns w msg p :
  p ∈ subscribers (cs w) ->
  length (filter (fun q => q = p) (pending (publish w msg)))
  = length (filter (fun q => q = p) (pending w))
    + (if queueFull w p then 1 else 0).
Proof.
  intros Hp. rewrite publish_pending, filter_app, length_app. f_equal.
  rewrite count_NoDup by apply NoDup_filter, NoDup_elements.
  destruct (queueFull w p) eqn:Hfull.
  - rewrite decide_True; [done|].
    apply list_elem_of_filter. rewrite Hfull. split; [done|].
    by apply elem_of_elements.
  - rewrite decide_False; [done|].
    intros [Hf _]%list_elem_of_filter. by rewrite Hfull in Hf.
Qed.

(** X16: a client that does not read is evicted once its channel is
    full.  When messages are published one after the other and a
    registered subscriber takes none from its queue, the queue receives the
    first of them up to the capacity of the channel and never more, and
    each message beyond that spawns one [closeSlow] for this subscriber and
    is not queued for it. *)
Theorem unread_messages_overflow w p s (ms : list bytes) :
  p ∈ subscribers (cs w) -> heap w !! p = Some s ->
  length (s_msgs s) ≤ s_cap s ->
  heap (foldl publish w ms) !! p
  = Some (set_msgs (s_msgs s ++ take (s_cap s - length (s_msgs s)) ms) s)
  /\ length (filter (fun q => q = p) (pending (foldl publish w ms)))
     = length (filter (fun q => q = p) (pending w))
       + (length ms - (s_cap s - length (s_msgs s)))
  /\ subscribers (cs (foldl publish w ms)) = subscribers (cs w).
Proof.
  revert w s. induction ms as [|m ms IH]; intros w s Hp Hs Hlen.
  - simpl. rewrite take_nil, app_nil_r. split_and!; [|lia|done].
    rewrite Hs. by destruct s.
  - simpl.
    assert (p ∈ subscribers (cs (publish w m))) as Hp1
      by by rewrite publish_subscribers.
    pose proof (publish_spawns w m p Hp) as Hcount.
    pose proof (publish_heap_registered w m p s Hp Hs) as Hs1.
    destruct (decide (length (s_msgs s) < s_cap s)) as [Hroom|Hfull].
    + rewrite chanTrySend_room in Hs1 by done. simpl in Hs1.
      assert (queueFull w p = false) as Hnf.
      { unfold queueFull. rewrite Hs. apply bool_decide_eq_false_2. lia. }
      rewrite Hnf in Hcount.
      destruct (IH (publish w m) _ Hp1 Hs1) as (Hheap & Hpend & Hsub).
      { simpl. rewrite length_app. simpl. lia. }
      simpl in Hheap, Hpend. rewrite Hheap, Hpend, Hsub, Hcount, publish_subscribers.
      rewrite length_app in *. simpl.
      replace (s_cap s - length (s_msgs s))
        with (S (s_cap s - (length (s_msgs s) + 1))) by lia.
      simpl. rewrite <- app_assoc. simpl. split_and!; [done|lia|done].
    + rewrite chanTrySend_full in Hs1 by lia. simpl in Hs1.
      assert (queueFull w p = true) as Hf.
      { unfold queueFull. rewrite Hs. apply bool_decide_eq_true_2. lia. }
      rewrite Hf in Hcount.
      destruct (IH (publish w m) s Hp1 Hs1 Hlen) as (Hheap & Hpend & Hsub).
      rewrite Hheap, Hpend, Hsub, Hcount, publish_subscribers.
      replace (s_cap s - length (s_msgs s)) with 0 by lia.
      rewrite !take_0. simpl. split_and!; [done|lia|done].
Qed.

End properties.

(** * The properties on sample runs *)

Lemma oneStalled_reachable : reachable NewHilo oneStalled.
Proof.
  unfold oneStalled, oneActive, oneAccepting.
  apply reachable_run, reachable_run, reachable_run. constructor.
Qed.

Lemma publish_fans_out_stalled :
  exists s evicted performed,
    heap oneStalled !! 1%positive = Some s /\ s_cap s = 16
    /\ pending (publish oneStalled hello) = pending oneStalled ++ evicted
    /\ trace (publish oneStalled hello) = trace oneStalled ++ performed
    /\ NoDup evicted
    /\ length performed = size (subscribers (cs oneStalled))
    /\ Forall (fun e => exists q, e = EEnqueue q hello \/ e = EGoCloseSlow q) performed
    /\ (length (s_msgs s) < 16 ->
         heap (publish oneStalled hello) !! 1%positive
         = Some (set_msgs (s_msgs s ++ [hello]) s)
         /\ EEnqueue 1%positive hello ∈ performed
         /\ (EGoCloseSlow 1%positive ∉ performed) /\ (1%positive ∉ evicted))
    /\ (16 ≤ length (s_msgs s) ->
         heap (publish oneStalled hello) !! 1%positive = Some s
         /\ EGoCloseSlow 1%positive ∈ performed /\ 1%positive ∈ evicted
         /\ EEnqueue 1%positive hello ∉ performed).
Proof.
  apply (publish_fans_out NewHilo oneStalled hello 1%positive).
  - exact oneStalled_reachable.
  - apply elem_of_elements. vm_compute. left.
Defined.

Lemma oneAccepting_reachable : reachable NewHilo oneAccepting.
Proof. unfold oneAccepting. apply reachable_run. constructor. Qed.

Lemma oneActive_reachable : reachable NewHilo oneActive.
Proof. unfold oneActive. apply reachable_run, oneAccepting_reachable. Qed.

Lemma closedEarly_reachable : reachable NewHilo closedEarly.
Proof. unfold closedEarly. apply reachable_run, oneAccepting_reachable. Qed.

Lemma oneAccepting_heap : heap oneAccepting !! 1%positive = Some waiting.
Proof. vm_compute. reflexivity. Qed.

Lemma oneActive_heap : heap oneActive !! 1%positive = Some connected.
Proof. vm_compute. reflexivity. Qed.

Lemma oneQueued_heap :
  heap oneQueued !! 1%positive = Some (set_msgs [hello] connected).
Proof. vm_compute. reflexivity. Qed.

Lemma closedEarly_heap :
  heap closedEarly !! 1%positive
  = Some (set_closed true (set_msgs (replicate 16 hello) waiting)).
Proof. vm_compute. reflexivity. Qed.

(** The client of [oneStalled] has sixteen messages waiting, so the next
    [publish] spawns its [closeSlow] and leaves its queue alone. *)
Example stalled_is_evicted :
  queueFull oneStalled 1%positive = true
  /\ pending (publish oneStalled hello) = [1%positive]
  /\ heap (publish oneStalled hello) !! 1%positive = heap oneStalled !! 1%positive.
Proof. vm_compute. by split_and!. Qed.

(** The round trip of the one-shot endpoint: the payload posted is the
    payload the write loop sends. *)
Example hello_round_trip :
  trace (run oneActive [Post postHello; Selected 1%positive (RecvMsg None)])
  = [EHandleMsg "10.0.0.9:4000" hello; EEnqueue 1%positive hello;
     EWrite 7%positive (WithTimeout sessionCtx (5 * Second)) hello].
Proof. vm_compute. reflexivity. Qed.

(** The timeouts of the session, in nanoseconds. *)
Example session_timeouts :
  (5 * Second = 5000000000)%Z /\ (60 * Minute = 3600000000000)%Z.
Proof. by split. Qed.

(** Evicting the stalled client: the publisher is answered 202, and the
    spawned [closeSlow] closes the connection with code 1008. *)
Example stalled_eviction :
  (publishHandler oneStalled postHello).2 = 202%Z
  /\ drop (length (trace oneStalled))
       (trace (run oneStalled [Post postHello; RunCloseSlow 1%positive]))
     = [EHandleMsg "10.0.0.9:4000" hello; EGoCloseSlow 1%positive;
        EClose 7%positive 1008 "connection too slow to keep up with messages"].
Proof. vm_compute. by split. Qed.

(** A body of 9000 bytes is refused, one of 100 bytes accepted. *)
Example publishHandler_9000_100 :
  (publishHandler newGameServer
     {| Method := "POST"; RemoteAddr := "10.0.0.9:4000";
        Body := {| r_data := replicate (Z.to_nat 9000) Byte.x61; r_err := None |} |}).2
  = 413%Z
  /\ (publishHandler newGameServer
        {| Method := "POST"; RemoteAddr := "10.0.0.9:4000";
           Body := {| r_data := replicate 100 Byte.x61; r_err := None |} |}).2
     = 202%Z.
Proof. vm_compute. by split. Qed.

Lemma registry_iff_running_accepting :
  1%positive ∈ subscribers (cs oneAccepting)
  <-> exists s, heap oneAccepting !! 1%positive = Some s
               /\ (s_stage s = Accepting \/ s_stage s = Active).
Proof.
  apply (registry_iff_running NewHilo oneAccepting 1%positive).
  exact oneAccepting_reachable.
Defined.

(** C2, as stated, fails: right after [subscribe] has begun, before the
    handshake has been answered, the subscriber is in the registry while
    its session is not active. *)
Lemma registered_before_handshake :
  reachable NewHilo oneAccepting
  /\ 1%positive ∈ subscribers (cs oneAccepting)
  /\ heap oneAccepting !! 1%positive = Some waiting
  /\ s_stage waiting = Accepting
  /\ ~ (1%positive ∈ subscribers (cs oneAccepting)
        <-> exists s, heap oneAccepting !! 1%positive = Some s
                     /\ s_stage s = Active).
Proof.
  assert (1%positive ∈ subscribers (cs oneAccepting)) as Hin.
  { apply elem_of_elements. vm_compute. left. }
  split_and!; [exact oneAccepting_reachable|done|exact oneAccepting_heap|done|].
  intros [Hact _]. destruct (Hact Hin) as (s & Hs & Hst).
  rewrite oneAccepting_heap in Hs. injection Hs as <-. discriminate Hst.
Qed.

Lemma publishHandler_statuses_hello :
  (publishHandler oneActive postHello).2 = 202%Z
  /\ (publishHandler oneActive postHello).1
     = publish (handle oneActive (RemoteAddr postHello) (r_data (Body postHello)))
         (r_data (Body postHello))
  /\ game (cs (publishHandler oneActive postHello).1)
     = HandleMsg (game (cs oneActive)) (RemoteAddr postHello)
         (r_data (Body postHello))
  /\ trace (publishHandler oneActive postHello).1
     = trace oneActive
       ++ EHandleMsg (RemoteAddr postHello) (r_data (Body postHello))
          :: map (fanout (r_data (Body postHello)) oneActive)
               (elements (subscribers (cs oneActive))).
Proof.
  apply (publishHandler_statuses NewHilo oneActive postHello oneActive_reachable).
  - reflexivity.
  - simpl. lia.
  - reflexivity.
Defined.

(** C3, as stated, fails: a POST whose body is two bytes long and then
    breaks off is within the limit, and is answered 413, not 202; nothing
    is handled or published. *)
Lemma publishHandler_cut_body :
  Method cutPost = "POST"
  /\ (Z.of_nat (length (r_data (Body cutPost))) <= 8192)%Z
  /\ publishHandler oneActive cutPost = (oneActive, 413%Z)
  /\ (publishHandler oneActive cutPost).2 ≠ 202%Z.
Proof. split_and!; [reflexivity | simpl; lia | reflexivity | discriminate]. Qed.

Lemma publishHandler_read_error_cut :
  ((8192 < Z.of_nat (length (r_data (Body cutPost))))%Z
   \/ r_err (Body cutPost) ≠ None
   <-> (ReadAll (MaxBytesReader (Body cutPost) 8192)).2 ≠ None)
  /\ ((ReadAll (MaxBytesReader (Body cutPost) 8192)).2 ≠ None ->
      publishHandler oneActive cutPost = (oneActive, 413%Z)).
Proof.
  apply (publishHandler_read_error oneActive cutPost). reflexivity.
Defined.

Lemma oneEvicting_heap :
  heap oneEvicting !! 1%positive
  = Some (set_msgs (replicate 16 hello) connected).
Proof. vm_compute. reflexivity. Qed.

Lemma closeSlow_policy_violation_evicting :
  1%positive ∈ pending oneEvicting
  /\ heap (closeSlow oneEvicting 1%positive) !! 1%positive
     = Some (set_closed true (set_msgs (replicate 16 hello) connected))
  /\ trace (closeSlow oneEvicting 1%positive)
     = trace oneEvicting
       ++ [EClose 7%positive 1008 "connection too slow to keep up with messages"]
  /\ (1%positive ∈ pending oneEvicting ->
      trace (step oneEvicting (RunCloseSlow 1%positive))
      = trace oneEvicting
        ++ [EClose 7%positive 1008 "connection too slow to keep up with messages"])
  /\ (forall r w', (publishHandler w' r).2 = (publishHandler oneEvicting r).2).
Proof.
  split; [vm_compute; left|].
  apply (closeSlow_policy_violation oneEvicting 1%positive
           (set_msgs (replicate 16 hello) connected) 7%positive).
  - exact oneEvicting_heap.
  - reflexivity.
Defined.

Lemma closedEarly_holds : heap closedEarly !! 1%positive = Some evictedWaiting.
Proof. vm_compute. reflexivity. Qed.

(** Run on the client that is still inside its handshake, [closeSlow]
    turns the flag from [false] to [true] and does nothing else. *)
Example closeSlow_sets_the_flag :
  (s_closed <$> heap oneAccepting !! 1%positive) = Some false
  /\ (s_closed <$> heap (closeSlow oneAccepting 1%positive) !! 1%positive)
     = Some true
  /\ trace (closeSlow oneAccepting 1%positive) = trace oneAccepting
  /\ cs (closeSlow oneAccepting 1%positive) = cs oneAccepting.
Proof. vm_compute. by split_and!. Qed.

Lemma closeSlow_without_conn_evicted :
  s_c evictedWaiting = None /\ s_closed evictedWaiting = true
  /\ (s_c evictedWaiting = None ->
      heap (closeSlow closedEarly 1%positive)
      = <[1%positive := set_closed true evictedWaiting]> (heap closedEarly)
      /\ cs (closeSlow closedEarly 1%positive) = cs closedEarly
      /\ pending (closeSlow closedEarly 1%positive) = pending closedEarly
      /\ trace (closeSlow closedEarly 1%positive) = trace closedEarly)
  /\ heap (closeSlow closedEarly 1%positive) !! 1%positive
     = Some (set_closed true evictedWaiting)
  /\ subscribers (cs (closeSlow closedEarly 1%positive))
     = subscribers (cs closedEarly)
  /\ (s_closed evictedWaiting = true ->
      forall evs, exists s',
        heap (run closedEarly evs) !! 1%positive = Some s' /\ s_closed s' = true)
  /\ (exists s',
        heap (closeSlow closedEarly 1%positive) !! 1%positive = Some s'
        /\ s_closed s' = true
        /\ s_c s' = s_c evictedWaiting /\ s_stage s' = s_stage evictedWaiting
        /\ s_msgs s' = s_msgs evictedWaiting
        /\ s_listen s' = s_listen evictedWaiting
        /\ s_id s' = s_id evictedWaiting /\ s_cap s' = s_cap evictedWaiting)
  /\ (forall evs, exists s',
        heap (run (closeSlow closedEarly 1%positive) evs) !! 1%positive = Some s'
        /\ s_closed s' = true).
Proof.
  split; [reflexivity|]. split; [reflexivity|].
  apply (closeSlow_without_conn NewHilo closedEarly 1%positive evictedWaiting).
  - exact closedEarly_reachable.
  - exact closedEarly_holds.
Defined.

Lemma closed_before_accept_evicted :
  exists err,
    (forall c2, @inl conn error 7%positive = inl c2 -> err = ErrClosed)
    /\ (forall e, @inl conn error 7%positive = inr e -> err = e)
    /\ heap (subscribe_accept closedEarly 1%positive (inl 7%positive)) !! 1%positive
       = Some (set_stage (Returned (Some err))
                 (set_closed true (set_msgs (replicate 16 hello) waiting)))
    /\ s_c (set_closed true (set_msgs (replicate 16 hello) waiting)) = None
    /\ s_listen (set_stage (Returned (Some err))
                   (set_closed true (set_msgs (replicate 16 hello) waiting)))
       = s_listen (set_closed true (set_msgs (replicate 16 hello) waiting))
    /\ (1%positive
        ∉ subscribers (cs (subscribe_accept closedEarly 1%positive (inl 7%positive))))
    /\ (forall evs, exists s',
          heap (run (subscribe_accept closedEarly 1%positive (inl 7%positive)) evs)
            !! 1%positive = Some s'
          /\ s_stage s' = Returned (Some err)).
Proof.
  apply (closed_before_accept NewHilo closedEarly 1%positive
           (set_closed true (set_msgs (replicate 16 hello) waiting))
           (inl 7%positive)).
  - exact closedEarly_reachable.
  - exact closedEarly_heap.
  - reflexivity.
  - reflexivity.
Defined.

Lemma write_loop_round_queued :
  (forall msg rest written, s_msgs (set_msgs [hello] connected) = msg :: rest ->
     exists tail,
       trace (subscribe_select oneQueued 1%positive (RecvMsg written))
       = trace oneQueued
         ++ EWrite 7%positive
              (WithTimeout (WithTimeout Background (60 * Minute)) (5 * Second))
              msg :: tail
       /\ match written with
          | None =>
              tail = []
              /\ heap (subscribe_select oneQueued 1%positive (RecvMsg written))
                   !! 1%positive
                 = Some (set_msgs rest (set_msgs [hello] connected))
              /\ cs (subscribe_select oneQueued 1%positive (RecvMsg written))
                 = cs oneQueued
          | Some err =>
              (exists tail', tail = ECloseNow 7%positive :: tail')
              /\ heap (subscribe_select oneQueued 1%positive (RecvMsg written))
                   !! 1%positive
                 = Some (set_stage (Returned (Some err))
                           (set_msgs rest (set_msgs [hello] connected)))
              /\ (1%positive
                  ∉ subscribers
                      (cs (subscribe_select oneQueued 1%positive (RecvMsg written))))
          end)
  /\ heap (subscribe_select oneQueued 1%positive Done) !! 1%positive
     = Some (set_stage (Returned (Some DeadlineExceeded))
               (set_msgs [hello] connected))
  /\ (1%positive ∉ subscribers (cs (subscribe_select oneQueued 1%positive Done)))
  /\ trace (subscribe_select oneQueued 1%positive Done)
     = trace oneQueued ++ [ECloseNow 7%positive; ELogSubscribe DeadlineExceeded].
Proof.
  apply (write_loop_round oneQueued 1%positive (set_msgs [hello] connected)
           7%positive).
  - exact oneQueued_heap.
  - reflexivity.
  - reflexivity.
Defined.

(** C4, as stated, fails on the clean end: when the deadline of the
    session passes, [subscribe] returns the error [DeadlineExceeded],
    [subscribeHandler] logs it as it logs a failed write, and the
    connection is dropped with [CloseNow]; an error it takes for an
    expected end ([Canceled], a normal closure) is not logged. *)
Lemma deadline_is_logged :
  reachable NewHilo expired
  /\ heap expired !! 1%positive
     = Some (set_stage (Returned (Some DeadlineExceeded)) connected)
  /\ trace expired = [ECloseNow 7%positive; ELogSubscribe DeadlineExceeded]
  /\ trace (subscribeHandler_end oneActive (Some DeadlineExceeded))
     = [ELogSubscribe DeadlineExceeded]
  /\ trace (subscribeHandler_end oneActive (Some (IOError "broken pipe")))
     = [ELogSubscribe (IOError "broken pipe")]
  /\ trace (subscribeHandler_end oneActive (Some Canceled)) = []
  /\ trace (subscribeHandler_end oneActive (Some (CloseError 1000 ""))) = [].
Proof.
  split_and!; try (vm_compute; reflexivity).
  unfold expired. apply reachable_run, oneActive_reachable.
Qed.

Lemma listen_round_fails_going_away :
  (CloseStatus (Some (CloseError 1001 "")) = 1000%Z ->
     heap (listen oneActive 1%positive (ReaderFailed (CloseError 1001 "")))
     = <[1%positive := set_listen (Exited None) connected]> (heap oneActive)
     /\ trace (listen oneActive 1%positive (ReaderFailed (CloseError 1001 "")))
        = trace oneActive)
  /\ (CloseStatus (Some (CloseError 1001 "")) ≠ 1000%Z ->
     heap (listen oneActive 1%positive (ReaderFailed (CloseError 1001 "")))
     = <[1%positive := set_listen (Exited (Some (CloseError 1001 ""))) connected]>
         (heap oneActive)
     /\ trace (listen oneActive 1%positive (ReaderFailed (CloseError 1001 "")))
        = trace oneActive ++ [ELogEcho (s_id connected) (CloseError 1001 "")])
  /\ (exists s',
        heap (listen oneActive 1%positive (ReaderFailed (CloseError 1001 "")))
          !! 1%positive = Some s'
        /\ s_stage s' = s_stage connected /\ s_msgs s' = s_msgs connected
        /\ s_closed s' = s_closed connected /\ s_c s' = s_c connected)
  /\ cs (listen oneActive 1%positive (ReaderFailed (CloseError 1001 "")))
     = cs oneActive
  /\ pending (listen oneActive 1%positive (ReaderFailed (CloseError 1001 "")))
     = pending oneActive
  /\ (forall rd' q sq,
        heap oneActive !! q = Some sq ->
        subscribers (cs (listen oneActive 1%positive rd'))
        = subscribers (cs oneActive)
        /\ exists sq', heap (listen oneActive 1%positive rd') !! q = Some sq'
                       /\ s_stage sq' = s_stage sq).
Proof.
  apply (listen_round_fails oneActive 1%positive connected
           (ReaderFailed (CloseError 1001 "")) (CloseError 1001 "")).
  - exact oneActive_heap.
  - reflexivity.
  - right. left. reflexivity.
Defined.

(** C5: the code does not do what the claim says, at two inputs.  A
    going-away closure, which [subscribeHandler] takes for an expected
    end, ends the read loop with an error, which it logs.  And the error
    of the read loop does not end the session, although the comment of
    [subscribe] has the read side cancel the context when the connection
    drops: after the connection broke under the read loop the session is
    still active and registered, and when it ends, at its deadline,
    [subscribe] returns [DeadlineExceeded]. *)
Lemma read_error_is_dropped :
  reachable NewHilo readBroken
  /\ heap (listen oneActive 1%positive (ReaderFailed (CloseError 1001 "")))
       !! 1%positive
     = Some (set_listen (Exited (Some (CloseError 1001 ""))) connected)
  /\ trace (listen oneActive 1%positive (ReaderFailed (CloseError 1001 "")))
     = [ELogEcho "10.0.0.1:5000" (CloseError 1001 "")]
  /\ heap readBroken !! 1%positive
     = Some (set_listen (Exited (Some (IOError "connection reset by peer")))
               connected)
  /\ s_stage connected = Active
  /\ 1%positive ∈ subscribers (cs readBroken)
  /\ heap (run readBroken [Selected 1%positive Done]) !! 1%positive
     = Some (set_stage (Returned (Some DeadlineExceeded))
               (set_listen (Exited (Some (IOError "connection reset by peer")))
                  connected)).
Proof.
  split_and!; try (vm_compute; reflexivity).
  unfold readBroken. apply reachable_run, oneActive_reachable.
Qed.

(** [games.HiLo] ignores what it is handed. *)
Lemma replay_HiLo (h : HiLo) (l : list effect) : replay h l = h.
Proof.
  induction l as [|e l IH]; [done|]. simpl. by destruct e.
Qed.

(** X7: the game of the server, [games.HiLo], is never changed by the
    messages it is handed: in every world the server reaches it is the game
    [NewHilo] built, with the magic number 10. *)
Theorem hilo_never_changes (w : world HiLo) :
  reachable NewHilo w -> game (cs w) = NewHilo /\ magic_number (game (cs w)) = 10%Z.
Proof.
  intros Hreach.
  destruct (reachable_extends NewHilo w Hreach) as (l & _ & _ & Hg & _).
  rewrite Hg, replay_HiLo. done.
Qed.

Lemma oneStalled_heap :
  heap oneStalled !! 1%positive = Some (set_msgs (replicate 16 hello) connected).
Proof. vm_compute. reflexivity. Qed.

Lemma oneQueued_reachable : reachable NewHilo oneQueued.
Proof. unfold oneQueued. apply reachable_run, oneActive_reachable. Qed.

Lemma oneEvicted_reachable : reachable NewHilo oneEvicted.
Proof.
  unfold oneEvicted, oneEvicting. apply reachable_run, reachable_run.
  exact oneStalled_reachable.
Qed.

Lemma expired_reachable : reachable NewHilo expired.
Proof. unfold expired. apply reachable_run, oneActive_reachable. Qed.

Lemma expired_heap :
  heap expired !! 1%positive
  = Some (set_stage (Returned (Some DeadlineExceeded)) connected).
Proof. vm_compute. reflexivity. Qed.

Lemma queue_within_capacity_stalled :
  length (s_msgs (set_msgs (replicate 16 hello) connected))
  ≤ s_cap (set_msgs (replicate 16 hello) connected)
  /\ s_cap (set_msgs (replicate 16 hello) connected) = 16.
Proof.
  apply (queue_within_capacity NewHilo oneStalled 1%positive).
  - exact oneStalled_reachable.
  - exact oneStalled_heap.
Defined.

Lemma session_shape_connected :
  (s_c connected = None <-> s_listen connected = NotStarted)
  /\ (s_stage connected = Accepting -> s_c connected = None)
  /\ (s_stage connected = Active -> is_Some (s_c connected))
  /\ s_stage connected ≠ Returned None.
Proof.
  apply (session_shape NewHilo oneActive 1%positive).
  - exact oneActive_reachable.
  - exact oneActive_heap.
Defined.

Lemma session_moves_forward_accepting :
  exists s',
    heap (run oneAccepting
            [Accepted 1%positive (inl 7%positive); Selected 1%positive Done])
      !! 1%positive = Some s'
    /\ rank (s_stage waiting) ≤ rank (s_stage s')
    /\ (forall c, s_c waiting = Some c -> s_c s' = Some c)
    /\ s_id s' = s_id waiting /\ s_cap s' = s_cap waiting.
Proof.
  apply (session_moves_forward NewHilo oneAccepting 1%positive waiting).
  - exact oneAccepting_reachable.
  - exact oneAccepting_heap.
Defined.

Lemma trace_is_allowed_evicted :
  (forall c code reason,
     EClose 7%positive 1008 "connection too slow to keep up with messages"
     = EClose c code reason ->
     code = 1008%Z /\ reason = "connection too slow to keep up with messages")
  /\ (forall c ctx msg,
       EClose 7%positive 1008 "connection too slow to keep up with messages"
       = EWrite c ctx msg ->
       ctx = WithTimeout (WithTimeout Background (60 * Minute)) (5 * Second))
  /\ (forall err,
       EClose 7%positive 1008 "connection too slow to keep up with messages"
       = ELogSubscribe err ->
       err ≠ Canceled /\ CloseStatus (Some err) ≠ 1000%Z
       /\ CloseStatus (Some err) ≠ 1001%Z)
  /\ (forall addr err,
       EClose 7%positive 1008 "connection too slow to keep up with messages"
       = ELogEcho addr err ->
       CloseStatus (Some err) ≠ 1000%Z).
Proof.
  apply (trace_is_allowed NewHilo oneEvicted).
  - exact oneEvicted_reachable.
  - refine (bool_decide_unpack _ _). vm_compute. exact I.
Defined.

Lemma game_is_replayed_queued :
  game (cs oneQueued) = replay NewHilo (trace oneQueued).
Proof. apply (game_is_replayed NewHilo oneQueued). exact oneQueued_reachable. Defined.

Lemma closed_only_by_eviction_early :
  (1%positive ∈ pending closedEarly -> EGoCloseSlow 1%positive ∈ trace closedEarly)
  /\ (forall s, heap closedEarly !! 1%positive = Some s -> s_closed s = true ->
               EGoCloseSlow 1%positive ∈ trace closedEarly).
Proof.
  apply (closed_only_by_eviction NewHilo closedEarly 1%positive).
  exact closedEarly_reachable.
Defined.

Lemma hilo_never_changes_queued :
  game (cs oneQueued) = NewHilo /\ magic_number (game (cs oneQueued)) = 10%Z.
Proof. apply (hilo_never_changes oneQueued). exact oneQueued_reachable. Defined.

Lemma write_loop_is_fifo_stalled :
  heap (run oneStalled (rounds 3 1%positive))
  = <[1%positive := set_msgs (drop 3 (s_msgs (set_msgs (replicate 16 hello) connected)))
                      (set_msgs (replicate 16 hello) connected)]> (heap oneStalled)
  /\ trace (run oneStalled (rounds 3 1%positive))
     = trace oneStalled
       ++ map (EWrite 7%positive
                 (WithTimeout (WithTimeout Background (60 * Minute)) (5 * Second)))
            (take 3 (s_msgs (set_msgs (replicate 16 hello) connected)))
  /\ cs (run oneStalled (rounds 3 1%positive)) = cs oneStalled
  /\ pending (run oneStalled (rounds 3 1%positive)) = pending oneStalled.
Proof.
  apply (write_loop_is_fifo oneStalled 1%positive
           (set_msgs (replicate 16 hello) connected) 7%positive 3).
  - exact oneStalled_heap.
  - reflexivity.
  - reflexivity.
  - simpl. lia.
Defined.

Lemma post_round_trip_hello :
  (publishHandler oneActive postHello).2 = 202%Z
  /\ trace (run (publishHandler oneActive postHello).1
              (rounds (S (length (s_msgs connected))) 1%positive))
     = trace (publishHandler oneActive postHello).1
       ++ map (EWrite 7%positive
                 (WithTimeout (WithTimeout Background (60 * Minute)) (5 * Second)))
            (s_msgs connected ++ [r_data (Body postHello)])
  /\ heap (run (publishHandler oneActive postHello).1
             (rounds (S (length (s_msgs connected))) 1%positive)) !! 1%positive
     = Some (set_msgs [] connected).
Proof.
  apply (post_round_trip NewHilo oneActive postHello 1%positive connected 7%positive).
  - exact oneActive_reachable.
  - reflexivity.
  - simpl. lia.
  - reflexivity.
  - exact oneActive_heap.
  - reflexivity.
  - reflexivity.
  - simpl. lia.
Defined.

Lemma handshake_outcomes_accepting :
  (forall err,
     heap (subscribe_accept oneAccepting 1%positive (inr err))
     = <[1%positive := set_stage (Returned (Some err)) waiting]> (heap oneAccepting)
     /\ subscribers (cs (subscribe_accept oneAccepting 1%positive (inr err)))
        = subscribers (cs oneAccepting) ∖ {[1%positive]}
     /\ 1%positive ∈ subscribers (cs oneAccepting)
     /\ trace (subscribe_accept oneAccepting 1%positive (inr err))
        = trace (subscribeHandler_end oneAccepting (Some err))
     /\ forall c, ECloseNow c
                  ∉ drop (length (trace oneAccepting))
                      (trace (subscribe_accept oneAccepting 1%positive (inr err))))
  /\ (forall c2,
       heap (subscribe_accept oneAccepting 1%positive (inl c2))
       = <[1%positive := set_listen Listening
                           (set_stage Active (set_c (Some c2) waiting))]>
           (heap oneAccepting)
       /\ cs (subscribe_accept oneAccepting 1%positive (inl c2)) = cs oneAccepting
       /\ 1%positive ∈ subscribers (cs oneAccepting)
       /\ pending (subscribe_accept oneAccepting 1%positive (inl c2))
          = pending oneAccepting
       /\ trace (subscribe_accept oneAccepting 1%positive (inl c2))
          = trace oneAccepting).
Proof.
  apply (handshake_outcomes NewHilo oneAccepting 1%positive waiting).
  - exact oneAccepting_reachable.
  - exact oneAccepting_heap.
  - reflexivity.
  - reflexivity.
Defined.

Lemma published_during_handshake_hello :
  heap (publish oneAccepting hello) !! 1%positive
  = Some (set_msgs (s_msgs waiting ++ [hello]) waiting)
  /\ trace (run (subscribe_accept (publish oneAccepting hello) 1%positive
                   (inl 7%positive))
              (rounds (S (length (s_msgs waiting))) 1%positive))
     = trace (publish oneAccepting hello)
       ++ map (EWrite 7%positive
                 (WithTimeout (WithTimeout Background (60 * Minute)) (5 * Second)))
            (s_msgs waiting ++ [hello]).
Proof.
  apply (published_during_handshake NewHilo oneAccepting 1%positive waiting hello
           7%positive).
  - exact oneAccepting_reachable.
  - exact oneAccepting_heap.
  - reflexivity.
  - reflexivity.
  - simpl. lia.
Defined.

Lemma frame_is_echoed_hello :
  listen oneActive 1%positive (Frame hello)
  = publish (handle oneActive (s_id connected) hello) hello
  /\ game (cs (listen oneActive 1%positive (Frame hello)))
     = HandleMsg (game (cs oneActive)) (s_id connected) hello
  /\ trace (listen oneActive 1%positive (Frame hello))
     = trace oneActive
       ++ EHandleMsg (s_id connected) hello
          :: map (fanout hello oneActive) (elements (subscribers (cs oneActive)))
  /\ (exists s', heap (listen oneActive 1%positive (Frame hello)) !! 1%positive
                 = Some s'
                 /\ s_listen s' = Listening)
  /\ (s_stage connected = Active -> length (s_msgs connected) < 16 ->
      heap (listen oneActive 1%positive (Frame hello)) !! 1%positive
      = Some (set_msgs (s_msgs connected ++ [hello]) connected)).
Proof.
  apply (frame_is_echoed NewHilo oneActive 1%positive connected hello).
  - exact oneActive_reachable.
  - exact oneActive_heap.
  - reflexivity.
Defined.

Lemma subscribe_registers_fresh_second :
  heap oneActive !! fresh oneActive = None
  /\ (fresh oneActive ∉ subscribers (cs oneActive))
  /\ subscribers (cs (subscribe_begin oneActive "10.0.0.1:5000"))
     = {[fresh oneActive]} ∪ subscribers (cs oneActive)
  /\ size (subscribers (cs (subscribe_begin oneActive "10.0.0.1:5000")))
     = S (size (subscribers (cs oneActive)))
  /\ heap (subscribe_begin oneActive "10.0.0.1:5000") !! fresh oneActive
     = Some (newSubscriber "10.0.0.1:5000" 16)
  /\ (forall q, q ≠ fresh oneActive ->
       heap (subscribe_begin oneActive "10.0.0.1:5000") !! q = heap oneActive !! q)
  /\ trace (subscribe_begin oneActive "10.0.0.1:5000") = trace oneActive
  /\ size (subscribers
             (cs (subscribe_begin (subscribe_begin oneActive "10.0.0.1:5000")
                    "10.0.0.1:5000")))
     = S (S (size (subscribers (cs oneActive)))).
Proof.
  apply (subscribe_registers_fresh NewHilo oneActive "10.0.0.1:5000").
  exact oneActive_reachable.
Defined.

Lemma returned_is_inert_expired :
  (1%positive ∉ subscribers (cs expired))
  /\ (forall msg,
       heap (publish expired msg) !! 1%positive
       = Some (set_stage (Returned (Some DeadlineExceeded)) connected)
       /\ (forall e, e ∈ drop (length (trace expired)) (trace (publish expired msg)) ->
                     e ≠ EEnqueue 1%positive msg /\ e ≠ EGoCloseSlow 1%positive))
  /\ (forall r, heap (publishHandler expired r).1 !! 1%positive
                = Some (set_stage (Returned (Some DeadlineExceeded)) connected))
  /\ (forall r, subscribe_accept expired 1%positive r = expired)
  /\ (forall sel, subscribe_select expired 1%positive sel = expired).
Proof.
  apply (returned_is_inert NewHilo expired 1%positive
           (set_stage (Returned (Some DeadlineExceeded)) connected)
           (Some DeadlineExceeded)).
  - exact expired_reachable.
  - exact expired_heap.
  - reflexivity.
Defined.

Lemma unread_messages_overflow_twenty :
  heap (foldl publish oneActive (replicate 20 hello)) !! 1%positive
  = Some (set_msgs (s_msgs connected
                    ++ take (s_cap connected - length (s_msgs connected))
                         (replicate 20 hello)) connected)
  /\ length (filter (fun q => q = 1%positive)
              (pending (foldl publish oneActive (replicate 20 hello))))
     = length (filter (fun q => q = 1%positive) (pending oneActive))
       + (length (replicate 20 hello)
          - (s_cap connected - length (s_msgs connected)))
  /\ subscribers (cs (foldl publish oneActive (replicate 20 hello)))
     = subscribers (cs oneActive).
Proof.
  apply (unread_messages_overflow oneActive 1%positive connected
           (replicate 20 hello)).
  - vm_compute. reflexivity.
  - exact oneActive_heap.
  - simpl. lia.
Defined.

(** Twenty messages to a client that reads none: sixteen are queued, four
    spawn a [closeSlow]. *)
Example twenty_unread :
  (s_msgs <$> heap (foldl publish oneActive (replicate 20 hello)) !! 1%positive)
  = Some (replicate 16 hello)
  /\ pending (foldl publish oneActive (replicate 20 hello))
     = replicate 4 1%positive.
Proof. vm_compute. by split. Qed.

Lemma closedEarlyLater_reachable : reachable NewHilo closedEarlyLater.
Proof.
  unfold closedEarlyLater, closedEarlyAccepted.
  apply reachable_run, reachable_run, closedEarly_reachable.
Qed.

(** C7: the code does not do what the claim says when a subscriber is
    evicted inside its handshake and the handshake then succeeds.
    [subscribe] returns [net.ErrClosed] and the subscriber leaves the
    registry without the session becoming active, but the connection that
    [websocket.Accept] handed out is never closed: [defer c.CloseNow()]
    comes after this return.  Neither at the return nor after the events
    that follow is there a call that closes the connection 7, while a
    session that returns from its loops, as in [expired], does close its
    connection. *)
Lemma early_return_leaks_conn :
  reachable NewHilo closedEarlyLater
  /\ heap closedEarly !! 1%positive = Some evictedWaiting
  /\ heap closedEarlyAccepted !! 1%positive
     = Some (set_stage (Returned (Some ErrClosed)) evictedWaiting)
  /\ (1%positive ∉ subscribers (cs closedEarlyAccepted))
  /\ drop (length (trace closedEarly)) (trace closedEarlyAccepted)
     = [ELogSubscribe ErrClosed]
  /\ filter (fun e => closes 7%positive e) (trace closedEarlyAccepted) = []
  /\ filter (fun e => closes 7%positive e) (trace closedEarlyLater) = []
  /\ filter (fun e => closes 7%positive e) (trace expired) = [ECloseNow 7%positive].
Proof.
  split; [exact closedEarlyLater_reachable|].
  split_and!; try (vm_compute; reflexivity).
  refine (bool_decide_unpack _ _). vm_compute. exact I.
Qed.
